(** * DTLMedian: counting, scoring and median selection over a DTL
      reconciliation graph.

    A shallow embedding of [DTLMedian.py].  Python dictionaries are finite
    maps ([gmap]), tuples are products, Python integers are [Z] and Python
    floats are binary64 floats ([PrimFloat.float], with its own rounding,
    infinities and NaN).  Exceptions are an explicit result type; unbounded
    recursion is cut by a fuel argument. *)

From Stdlib Require Import ZArith Lia Floats.
From stdpp Require Import base option list gmap strings fin_maps sorting.

(** ** Data model *)

(** A tree node label, or Python's [None]. *)
Definition node : Type := option string.

(** [('gene_node', 'SPECIES_NODE')], or [(None, None)]. *)
Definition mapping_node : Type := node * node.

Definition sentinel : mapping_node := (None, None).

(** [('event_type', child_mapping_node1, child_mapping_node2)]. *)
Definition event : Type := string * mapping_node * mapping_node.

Definition event_type (e : event) : string := e.1.1.
Definition child1 (e : event) : mapping_node := e.1.2.
Definition child2 (e : event) : mapping_node := e.2.

Definition contemporary : event := ("C"%string, sentinel, sentinel).

(** [{ mapping_node: [event1, event2, ... eventn], ...}] *)
Abbreviation recon_graph := (gmap mapping_node (list event)).

(** The memo of [count_mprs]: one dictionary keyed by mapping nodes and by
    event nodes alike (a 2-tuple never equals a 3-tuple). *)
Abbreviation counts_t := (gmap (mapping_node + event) Z).

(** ** Exceptions *)

Inductive exn : Set :=
| KeyError | IndexError | ValueError | AssertionError
| ZeroDivisionError | OverflowError | NameError | OutOfFuel.

Inductive result (A : Type) : Type :=
| Ok (a : A)
| Raise (e : exn).
Arguments Ok {A} a.
Arguments Raise {A} e.

#[global] Instance result_ret : MRet result := fun A a => Ok a.
#[global] Instance result_bind : MBind result := fun A B f m =>
  match m with
  | Ok a => f a
  | Raise e => Raise e
  end.

#[global] Instance exn_eq_dec : EqDecision exn.
Proof. solve_decision. Defined.

(** Equality of floats as values (all NaNs being one value), decided by the
    primitive comparison of representations. *)
#[global] Instance float_eq_dec : EqDecision float := fun x y =>
  match PrimFloat.Leibniz.eqb x y as b
        return PrimFloat.Leibniz.eqb x y = b → Decision (x = y) with
  | true => fun H => left (proj1 (FloatAxioms.Leibniz.eqb_spec x y) H)
  | false => fun H => right (fun Heq =>
      eq_ind true (fun b => if b then True else False) I false
             (eq_trans (eq_sym (proj2 (FloatAxioms.Leibniz.eqb_spec x y) Heq)) H))
  end eq_refl.

#[global] Instance result_eq_dec `{EqDecision A} : EqDecision (result A).
Proof. solve_decision. Defined.

(** [d[k]] *)
Definition getitem `{Countable K} {V} (d : gmap K V) (k : K) : result V :=
  match d !! k with
  | Some v => Ok v
  | None => Raise KeyError
  end.

(** ** The MPR counter *)

(** The body of the loop over the event nodes of one mapping node;
    [rec] is the recursive call of [count_mprs]. *)
Fixpoint count_events (rec : mapping_node → counts_t → result (Z * counts_t))
    (events : list event) (count : Z) (counts : counts_t)
  : result (Z * counts_t) :=
  match events with
  | [] => Ok (count, counts)
  | eventNode :: rest =>
      let mapping_child1 := child1 eventNode in
      let mapping_child2 := child2 eventNode in
      '(c1, counts) ← rec mapping_child1 counts;
      '(c2, counts) ← rec mapping_child2 counts;
      let counts := <[inr eventNode := (c1 * c2)%Z]> counts in
      count_events rec rest (count + c1 * c2)%Z counts
  end.

Fixpoint count_mprs (fuel : nat) (mapping_node : mapping_node)
    (dtl_recon_graph : recon_graph) (counts : counts_t)
  : result (Z * counts_t) :=
  match counts !! inl mapping_node with
  | Some v => Ok (v, counts)
  | None =>
      if decide (mapping_node = sentinel) then Ok (1%Z, counts) else
      match fuel with
      | O => Raise OutOfFuel
      | S fuel' =>
          events ← getitem dtl_recon_graph mapping_node;
          '(count, counts) ←
            count_events (fun m c => count_mprs fuel' m dtl_recon_graph c)
                         events 0%Z counts;
          Ok (count, <[inl mapping_node := count]> counts)
      end
  end.

(** The first loop of [generate_scores]: the total over the mapping nodes
    whose gene component is the gene-tree root. *)
Fixpoint count_roots (fuel : nat) (preorder_mapping_node_list : list mapping_node)
    (dtl_recon_graph : recon_graph) (gene_root : node)
    (count : Z) (counts : counts_t) : result (Z * counts_t) :=
  match preorder_mapping_node_list with
  | [] => Ok (count, counts)
  | mappingNode :: rest =>
      if decide (mappingNode.1 = gene_root) then
        '(c, counts) ← count_mprs fuel mappingNode dtl_recon_graph counts;
        count_roots fuel rest dtl_recon_graph gene_root (count + c)%Z counts
      else count_roots fuel rest dtl_recon_graph gene_root count counts
  end.

(** The reference count, following the text of the counter's contract: the
    sentinel counts 1; a mapping node counts the sum, over its events, of
    the product of the counts of the event's two children.  No memo;
    [None] when a node is missing or the fuel is spent. *)
Definition sum_products (cnt : mapping_node → option Z) (events : list event) : option Z :=
  foldr (fun e acc =>
           n1 ← cnt (child1 e);
           n2 ← cnt (child2 e);
           a ← acc;
           Some (n1 * n2 + a)%Z)
        (Some 0%Z) events.

Fixpoint mpr_count (fuel : nat) (g : recon_graph) (m : mapping_node) : option Z :=
  if decide (m = sentinel) then Some 1%Z else
  match fuel with
  | O => None
  | S fuel' =>
      events ← g !! m;
      sum_products (mpr_count fuel' g) events
  end.

(** The count of one event in the reference: the product over its children. *)
Definition event_count (fuel : nat) (g : recon_graph) (e : event) : option Z :=
  n1 ← mpr_count fuel g (child1 e);
  n2 ← mpr_count fuel g (child2 e);
  Some (n1 * n2)%Z.

(** The sum of the reference counts of a list of mapping nodes. *)
Definition sum_counts (cnt : mapping_node → option Z) (ms : list mapping_node) : option Z :=
  foldr (fun m acc => n ← cnt m; a ← acc; Some (n + a)%Z) (Some 0%Z) ms.

(** ** The frequency scorer *)

(** A Python number: the scores of the gene-root mapping nodes are stored
    as integers (the counts), all others are floats. *)
Inductive pynum : Type :=
| PyInt (z : Z)
| PyFloat (f : float).

#[global] Instance pynum_eq_dec : EqDecision pynum.
Proof. solve_decision. Defined.

(** The conversion of an integer to the nearest float, ties to even. *)
Definition float_of_Z (z : Z) : float :=
  SF2Prim (binary_normalize prec emax z 0 false).

(** [float(x)], also applied silently to the integer operand of a mixed
    operation: an integer too large for a float raises [OverflowError]. *)
Definition py_float (x : pynum) : result float :=
  match x with
  | PyFloat f => Ok f
  | PyInt z =>
      let f := float_of_Z z in
      if is_infinity f then Raise OverflowError else Ok f
  end.

(** [x != 0] *)
Definition py_nonzero (x : pynum) : bool :=
  match x with
  | PyInt z => negb (z =? 0)%Z
  | PyFloat f => negb (f =? 0)%float
  end.

(** [x / y] with a float [y]: the left operand is converted first, then a
    zero divisor raises [ZeroDivisionError]. *)
Definition py_div (x : pynum) (y : float) : result float :=
  xf ← py_float x;
  if (y =? 0)%float then Raise ZeroDivisionError else Ok (xf / y)%float.

Abbreviation scores_t := (gmap mapping_node pynum).
Abbreviation scored_t := (gmap event float).

(** The loop over the events in [calculate_scores_for_children]. *)
Fixpoint score_events (multiplier : float) (events : list event)
    (scored_graph : scored_t) (scores : scores_t) (counts : counts_t)
  : result (scored_t * scores_t) :=
  match events with
  | [] => Ok (scored_graph, scores)
  | eventNode :: rest =>
      ce ← getitem counts (inr eventNode);
      cf ← py_float (PyInt ce);
      let v := (multiplier * cf)%float in
      let scored_graph := <[eventNode := v]> scored_graph in
      let mapping_child1 := child1 eventNode in
      let mapping_child2 := child2 eventNode in
      s1 ← getitem scores mapping_child1;
      f1 ← py_float s1;
      let scores := <[mapping_child1 := PyFloat (f1 + v)%float]> scores in
      s2 ← getitem scores mapping_child2;
      f2 ← py_float s2;
      let scores := <[mapping_child2 := PyFloat (f2 + v)%float]> scores in
      score_events multiplier rest scored_graph scores counts
  end.

Definition calculate_scores_for_children (mapping_node : mapping_node)
    (dtl_recon_graph : recon_graph) (scored_graph : scored_t)
    (scores : scores_t) (counts : counts_t) : result (scored_t * scores_t) :=
  events ← getitem dtl_recon_graph mapping_node;
  s ← getitem scores mapping_node;
  if negb (py_nonzero s) then Raise AssertionError else
  sf ← py_float s;
  c ← getitem counts (inl mapping_node);
  multiplier ← (cf ← py_float (PyInt c); py_div (PyFloat sf) cf);
  score_events multiplier events scored_graph scores counts.

(** [for mappingNode in preorder_mapping_node_list: scores[mappingNode] = 0.0],
    then [scores[(None, None)] = 0.0]. *)
Definition init_scores (preorder_mapping_node_list : list mapping_node) : scores_t :=
  <[sentinel := PyFloat 0]>
    (foldl (fun scores mappingNode => <[mappingNode := PyFloat 0]> scores) ∅
           preorder_mapping_node_list).

(** The names bound at module level in [DTLMedian.py]: its imports and its
    function definitions.  A name that is neither a local of the running
    function nor in this list (nor a builtin) raises [NameError]. *)
Definition module_globals : list string :=
  ["sys"; "traceback"; "time"; "random"; "itemgetter"; "pd"; "DTLReconGraph";
   "NewDiameter"; "RunTests"; "mapping_node_sort"; "generate_scores";
   "count_mprs"; "calculate_scores_for_children"; "compute_median";
   "check_subgraph"; "build_median_recon_graph"; "choose_random_median";
   "compute_median_from_file"; "calc_med_diameter"; "n_med_test";
   "rep_calc_med_diameter"]%string.

Definition load_global (name : string) : result unit :=
  if decide (name ∈ module_globals) then Ok () else Raise NameError.

(** [generate_scores] exactly as written.  Its third and fourth loops refer
    to [geneRoot], [calculateScoresForChildren], [DTLReconGraph],
    [eventScores] and [preorderMappingNodeList], none of which is a local of
    the function; the first one reached is looked up in the module. *)
Definition generate_scores (fuel : nat) (preorder_mapping_node_list : list mapping_node)
    (dtl_recon_graph : recon_graph) (gene_root : node) : result (scored_t * Z) :=
  '(count, counts) ← count_roots fuel preorder_mapping_node_list dtl_recon_graph gene_root 0%Z ∅;
  let scores := init_scores preorder_mapping_node_list in
  let event_scores : scored_t := ∅ in
  _ ← match preorder_mapping_node_list with
      | mappingNode :: _ => load_global "geneRoot"
      | [] => Ok ()
      end;
  _ ← load_global "preorderMappingNodeList";
  Ok (event_scores, count).

(** The third loop with the five stale identifiers read as the parameters
    and the function they were renamed to. *)
Fixpoint cascade (preorder_mapping_node_list : list mapping_node)
    (dtl_recon_graph : recon_graph) (gene_root : node)
    (event_scores : scored_t) (scores : scores_t) (counts : counts_t)
  : result (scored_t * scores_t) :=
  match preorder_mapping_node_list with
  | [] => Ok (event_scores, scores)
  | mappingNode :: rest =>
      scores ← (if decide (mappingNode.1 = gene_root) then
                  c ← getitem counts (inl mappingNode);
                  Ok (<[mappingNode := PyInt c]> scores)
                else Ok scores);
      '(event_scores, scores) ←
        calculate_scores_for_children mappingNode dtl_recon_graph event_scores scores counts;
      cascade rest dtl_recon_graph gene_root event_scores scores counts
  end.

(** The fourth loop: [scores[mappingNode] = scores[mappingNode] / float(count)]. *)
Fixpoint normalize (preorder_mapping_node_list : list mapping_node) (count : Z)
    (scores : scores_t) : result scores_t :=
  match preorder_mapping_node_list with
  | [] => Ok scores
  | mappingNode :: rest =>
      s ← getitem scores mappingNode;
      cf ← py_float (PyInt count);
      q ← py_div s cf;
      normalize rest count (<[mappingNode := PyFloat q]> scores)
  end.

(** [generate_scores] with the stale identifiers bound as above; everything
    else is the source's. *)
Definition generate_scores_bound (fuel : nat) (preorder_mapping_node_list : list mapping_node)
    (dtl_recon_graph : recon_graph) (gene_root : node) : result (scored_t * Z) :=
  '(count, counts) ← count_roots fuel preorder_mapping_node_list dtl_recon_graph gene_root 0%Z ∅;
  let scores := init_scores preorder_mapping_node_list in
  '(event_scores, scores) ←
    cascade preorder_mapping_node_list dtl_recon_graph gene_root ∅ scores counts;
  scores ← normalize preorder_mapping_node_list count scores;
  Ok (event_scores, count).

(** ** Subgraph check *)

Definition check_subgraph (recon_graph subrecon : recon_graph) : bool :=
  forallb (fun '(map_node, events) =>
             match recon_graph !! map_node with
             | None => false
             | Some evs => forallb (fun event => bool_decide (event ∈ evs)) events
             end)
          (map_to_list subrecon).

(** ** The median selector *)

(** Values of [sum_freqs] in the first loop: (best events, running sum). *)
Abbreviation sum_freqs_t := (gmap mapping_node (list event * float)).

Definition half : float := 0.5%float.

(** The candidate total of one event. *)
Definition candidate_total (event : event) (sum_freqs : sum_freqs_t)
    (event_scores : scored_t) : result float :=
  if decide (event_type event = "L"%string) then
    s1 ← getitem sum_freqs (child1 event);
    f ← getitem event_scores event;
    Ok (s1.2 + f - half)%float
  else
    s1 ← getitem sum_freqs (child1 event);
    s2 ← getitem sum_freqs (child2 event);
    f ← getitem event_scores event;
    Ok (s1.2 + s2.2 + f - half)%float.

(** The list [events] of (event, candidate total) pairs. *)
Fixpoint candidate_totals (events : list event) (sum_freqs : sum_freqs_t)
    (event_scores : scored_t) : result (list (event * float)) :=
  match events with
  | [] => Ok []
  | event :: rest =>
      c ← candidate_total event sum_freqs event_scores;
      cs ← candidate_totals rest sum_freqs event_scores;
      Ok ((event, c) :: cs)
  end.

(** [max(events, key=itemgetter(1))]: an element replaces the running
    maximum when its key is greater; [ValueError] on an empty list. *)
Fixpoint max_from (best : event * float) (events : list (event * float))
  : event * float :=
  match events with
  | [] => best
  | x :: rest => if (best.2 <? x.2)%float then max_from x rest else max_from best rest
  end.

Definition py_max (events : list (event * float)) : result (event * float) :=
  match events with
  | [] => Raise ValueError
  | x :: rest => Ok (max_from x rest)
  end.

(** The events whose total equals [max_sum], in order. *)
Definition best_events_of (events : list (event * float)) (max_sum : float)
  : list event :=
  (filter (fun x : event * float => (x.2 =? max_sum)%float = true) events).*1.

(** The first loop of [compute_median]. *)
Fixpoint sum_freqs_loop (dtl_recon_graph : recon_graph) (event_scores : scored_t)
    (postorder_mapping_nodes : list mapping_node) (sum_freqs : sum_freqs_t)
  : result sum_freqs_t :=
  match postorder_mapping_nodes with
  | [] => Ok sum_freqs
  | map_node :: rest =>
      evs ← getitem dtl_recon_graph map_node;
      if decide (evs = [contemporary]) then
        sum_freqs_loop dtl_recon_graph event_scores rest
                       (<[map_node := ([contemporary], half)]> sum_freqs)
      else
        events ← candidate_totals evs sum_freqs event_scores;
        best ← py_max events;
        let max_sum := best.2 in
        let best_events := best_events_of events max_sum in
        sum_freqs_loop dtl_recon_graph event_scores rest
                       (<[map_node := (best_events, max_sum)]> sum_freqs)
  end.

(** [[(root, sum_freqs[root][1]) for root in mpr_roots]] *)
Fixpoint possible_root_combos (mpr_roots : list mapping_node) (sum_freqs : sum_freqs_t)
  : result (list (mapping_node * float)) :=
  match mpr_roots with
  | [] => Ok []
  | root :: rest =>
      s ← getitem sum_freqs root;
      cs ← possible_root_combos rest sum_freqs;
      Ok ((root, s.2) :: cs)
  end.

(** The loop selecting the best roots. *)
Fixpoint best_roots_loop (combos : list (mapping_node * float))
    (best_sum : option float) (best_roots : list mapping_node)
  : option float * list mapping_node :=
  match combos with
  | [] => (best_sum, best_roots)
  | root_combo :: rest =>
      match best_sum with
      | None => best_roots_loop rest (Some root_combo.2) (best_roots ++ [root_combo.1])
      | Some b =>
          if (root_combo.2 =? b)%float then
            best_roots_loop rest best_sum (best_roots ++ [root_combo.1])
          else if (b <? root_combo.2)%float then
            best_roots_loop rest (Some root_combo.2) [root_combo.1]
          else best_roots_loop rest best_sum best_roots
      end
  end.

(** Modelled from the spec: [DTLReconGraph.build_dtl_recon_graph], which is
    not among the sources.  Given roots and a mapping from mapping node to
    its selected event list it reconstructs a dictionary of the shape of a
    reconciliation graph: every root is entered with its event list and so
    is, recursively, every real child of its events.  [rec] is the
    recursive call on the children. *)
Fixpoint build_nodes (rec : list mapping_node → recon_graph → result recon_graph)
    (tup_list : list mapping_node) (recon_dict : recon_graph)
    (dtl_recon_graph : recon_graph) : result recon_graph :=
  match tup_list with
  | [] => Ok dtl_recon_graph
  | map_node :: rest =>
      if decide (map_node = sentinel) then
        build_nodes rec rest recon_dict dtl_recon_graph
      else
        evs ← getitem recon_dict map_node;
        dtl_recon_graph ←
          rec (flat_map (fun e : event => [child1 e; child2 e]) evs)
              (<[map_node := evs]> dtl_recon_graph);
        build_nodes rec rest recon_dict dtl_recon_graph
  end.

Fixpoint build_dtl_recon_graph (fuel : nat) (tup_list : list mapping_node)
    (recon_dict : recon_graph) (dtl_recon_graph : recon_graph) : result recon_graph :=
  match fuel with
  | O => Raise OutOfFuel
  | S fuel' =>
      build_nodes (fun l g => build_dtl_recon_graph fuel' l recon_dict g)
                  tup_list recon_dict dtl_recon_graph
  end.

(** Modelled from the spec: [DTLReconGraph.count_mprs_wrapper], which is not
    among the sources: the counting algorithm run again on the given graph
    from the given roots, with a fresh memo. *)
Fixpoint count_from_roots (fuel : nat) (mpr_roots : list mapping_node)
    (dtl_recon_graph : recon_graph) (count : Z) (counts : counts_t) : result Z :=
  match mpr_roots with
  | [] => Ok count
  | root :: rest =>
      '(c, counts) ← count_mprs fuel root dtl_recon_graph counts;
      count_from_roots fuel rest dtl_recon_graph (count + c)%Z counts
  end.

Definition count_mprs_wrapper (fuel : nat) (mpr_roots : list mapping_node)
    (dtl_recon_graph : recon_graph) : result Z :=
  count_from_roots fuel mpr_roots dtl_recon_graph 0%Z ∅.

Definition compute_median (fuel : nat) (dtl_recon_graph : recon_graph)
    (event_scores : scored_t) (postorder_mapping_nodes mpr_roots : list mapping_node)
  : result (recon_graph * Z * list mapping_node) :=
  sum_freqs ← sum_freqs_loop dtl_recon_graph event_scores postorder_mapping_nodes ∅;
  combos ← possible_root_combos mpr_roots sum_freqs;
  let best_roots := (best_roots_loop combos None []).2 in
  let sum_freqs : recon_graph := fst <$> sum_freqs in
  med_recon_graph ← build_dtl_recon_graph fuel best_roots sum_freqs ∅;
  if check_subgraph dtl_recon_graph med_recon_graph then
    n_med_recons ← count_mprs_wrapper fuel best_roots med_recon_graph;
    Ok (med_recon_graph, n_med_recons, best_roots)
  else Raise AssertionError.

(** ** Single-path extraction *)

(** [seq[0]] *)
Definition first_item {A} (seq : list A) : result A :=
  match seq with
  | [] => Raise IndexError
  | x :: _ => Ok x
  end.

(** [d.update(other)]: the entries of [other] override those of [d]. *)
Definition dict_update {V} (d other : gmap mapping_node V) : gmap mapping_node V :=
  other ∪ d.

Fixpoint build_median_recon_graph (fuel : nat) (event_dict : recon_graph)
    (root : mapping_node) : result recon_graph :=
  match fuel with
  | O => Raise OutOfFuel
  | S fuel' =>
      evs ← getitem event_dict root;
      let subgraph_recon_dict : recon_graph := dict_update ∅ {[root := evs]} in
      e ← first_item evs;
      if decide (event_type e = "L"%string) then
        r1 ← build_median_recon_graph fuel' event_dict (child1 e);
        Ok (dict_update subgraph_recon_dict r1)
      else if decide (event_type e ∈ ["T"; "S"; "D"]%string) then
        r1 ← build_median_recon_graph fuel' event_dict (child1 e);
        r2 ← build_median_recon_graph fuel' event_dict (child2 e);
        Ok (dict_update (dict_update subgraph_recon_dict r1) r2)
      else Ok subgraph_recon_dict
  end.

(** [random.choice(seq)]: [IndexError] on an empty sequence, otherwise the
    element at an index below the length; [draw] is the number delivered by
    the generator at this call. *)
Definition random_choice {A} (draw : nat) (seq : list A) : result A :=
  match seq !! (draw mod length seq) with
  | Some x => Ok x
  | None => Raise IndexError
  end.

(** The generator is a stream of draws [rand] and the number [k] of draws
    consumed so far, which is threaded through the calls. *)
Fixpoint choose_random_median (fuel : nat) (rand : nat → nat) (k : nat)
    (median_recon : recon_graph) (map_node : mapping_node)
  : result (recon_graph * nat) :=
  match fuel with
  | O => Raise OutOfFuel
  | S fuel' =>
      evs ← getitem median_recon map_node;
      next_event ← random_choice (rand k) evs;
      let k := S k in
      let random_submedian : recon_graph := dict_update ∅ {[map_node := [next_event]]} in
      '(random_submedian, k) ←
        (if decide (event_type next_event = "L"%string) then
           '(r1, k) ← choose_random_median fuel' rand k median_recon (child1 next_event);
           Ok (dict_update random_submedian r1, k)
         else if decide (event_type next_event ∈ ["T"; "S"; "D"]%string) then
           '(r1, k) ← choose_random_median fuel' rand k median_recon (child1 next_event);
           '(r2, k) ← choose_random_median fuel' rand k median_recon (child2 next_event);
           Ok (dict_update (dict_update random_submedian r1) r2, k)
         else Ok (random_submedian, k));
      if check_subgraph median_recon random_submedian then Ok (random_submedian, k)
      else Raise AssertionError
  end.

(** ** The mapping-node order *)

(** [for i, x in enumerate(l): lookup[x] = level i], counting from [i]. *)
Fixpoint level_lookup (level : nat → Z) (i : nat) (l : list node)
    (lookup : gmap node Z) : gmap node Z :=
  match l with
  | [] => lookup
  | x :: rest => level_lookup level (S i) rest (<[x := level i]> lookup)
  end.

(** The keys of all elements are computed first, in order. *)
Fixpoint sort_keys (key : mapping_node → result Z) (l : list mapping_node)
  : result (list (Z * mapping_node)) :=
  match l with
  | [] => Ok []
  | x :: rest =>
      k ← key x;
      ks ← sort_keys key rest;
      Ok ((k, x) :: ks)
  end.

(** [sorted] is stable: an element goes before the first one whose key is
    not smaller. *)
Fixpoint insert_sorted (x : Z * mapping_node) (l : list (Z * mapping_node))
  : list (Z * mapping_node) :=
  match l with
  | [] => [x]
  | y :: rest => if (x.1 <=? y.1)%Z then x :: y :: rest else y :: insert_sorted x rest
  end.

Definition sorted_by_key (l : list (Z * mapping_node)) : list (Z * mapping_node) :=
  foldr insert_sorted [] l.

Definition mapping_node_sort (ordered_gene_node_list ordered_species_node_list : list node)
    (mapping_node_list : list mapping_node) : result (list mapping_node) :=
  let gene_multiplier := length ordered_species_node_list in
  let gene_level_lookup :=
    level_lookup (fun i => (Z.of_nat i * Z.of_nat gene_multiplier)%Z) 0
                 ordered_gene_node_list ∅ in
  let species_level_lookup := level_lookup Z.of_nat 0 ordered_species_node_list ∅ in
  keyed ← sort_keys (fun node =>
                       g ← getitem gene_level_lookup node.1;
                       s ← getitem species_level_lookup node.2;
                       Ok (g + s)%Z)
                    mapping_node_list;
  Ok ((sorted_by_key keyed).*2).

(** The position of an element in a list: its index under [enumerate]
    (the first one, should it occur twice). *)
Fixpoint position `{EqDecision A} (x : A) (l : list A) : nat :=
  match l with
  | [] => 0
  | y :: rest => if decide (x = y) then 0 else S (position x rest)
  end.

(** [rank = gene_index * species_count + species_index] *)
Definition rank (gl sl : list node) (m : mapping_node) : Z :=
  (Z.of_nat (position m.1 gl) * Z.of_nat (length sl) + Z.of_nat (position m.2 sl))%Z.

(** Gene position first, species position among equal gene components. *)
Definition lex_le (gl sl : list node) (m1 m2 : mapping_node) : Prop :=
  position m1.1 gl < position m2.1 gl ∨
  (position m1.1 gl = position m2.1 gl ∧ position m1.2 sl ≤ position m2.2 sl).

(** ** Well-formedness of graphs *)

(** The children into which the path walkers ([build_median_recon_graph],
    [choose_random_median]) descend from an event. *)
Definition followed (e : event) : list mapping_node :=
  if decide (event_type e = "L"%string) then [child1 e]
  else if decide (event_type e ∈ ["T"; "S"; "D"]%string) then [child1 e; child2 e]
  else [].

(** A graph is closed under the followed children of its events and
    acyclic: [depth] decreases along every followed edge. *)
Definition walkable (g : recon_graph) (depth : mapping_node → nat) : Prop :=
  ∀ m evs e c, g !! m = Some evs → e ∈ evs → c ∈ followed e →
    is_Some (g !! c) ∧ depth c < depth m.

(** The mapping nodes met by the walk that starts at [root] and descends
    from each mapping node into the followed children of its first event. *)
Inductive on_first_walk (d : recon_graph) (root : mapping_node) : mapping_node → Prop :=
| walk_root : on_first_walk d root root
| walk_step m e evs c :
    on_first_walk d root m → d !! m = Some (e :: evs) → c ∈ followed e →
    on_first_walk d root c.

(** A checkable condition on a list [nodes] of mapping nodes: each is a key
    with a non-empty list, and the followed children of its first event
    are in the list again and have a smaller depth. *)
Definition first_walk_check (d : recon_graph) (depth : mapping_node → nat)
    (nodes : list mapping_node) : bool :=
  forallb (fun m =>
             match d !! m with
             | Some (e :: _) =>
                 forallb (fun c => bool_decide (c ∈ nodes) && (depth c <? depth m))
                         (followed e)
             | _ => false
             end) nodes.

Definition nonempty_events (g : recon_graph) : Prop :=
  ∀ m evs, g !! m = Some evs → evs ≠ [].

(** [sub] lists, under each of its keys, one event taken from the list of
    the same key in [g]. *)
Definition single_path_of (g sub : recon_graph) : Prop :=
  ∀ m evs, sub !! m = Some evs →
    ∃ e evs0, evs = [e] ∧ g !! m = Some evs0 ∧ e ∈ evs0.

(** Both children of every event are the sentinel or keys of the graph,
    and the graph is acyclic: [depth] decreases from a mapping node to the
    children of its events. *)
Definition closed_dag (g : recon_graph) (depth : mapping_node → nat) : Prop :=
  ∀ m evs e c, g !! m = Some evs → e ∈ evs → c ∈ [child1 e; child2 e] →
    c = sentinel ∨ (is_Some (g !! c) ∧ depth c < depth m).

(** The memo holds reference counts only. *)
Definition memo_ok (g : recon_graph) (counts : counts_t) : Prop :=
  (∀ m n, counts !! inl m = Some n → ∃ f, mpr_count f g m = Some n) ∧
  (∀ e n, counts !! inr e = Some n → ∃ f, event_count f g e = Some n).

(** With a mapping node the memo holds its events and their real children. *)
Definition memo_closed (g : recon_graph) (counts : counts_t) : Prop :=
  ∀ m evs e, is_Some (counts !! inl m) → g !! m = Some evs → e ∈ evs →
    is_Some (counts !! inr e) ∧
    ∀ c, c ∈ [child1 e; child2 e] → c = sentinel ∨ is_Some (counts !! inl c).

Definition memo_inv (g : recon_graph) (counts : counts_t) : Prop :=
  memo_ok g counts ∧ memo_closed g counts.

(** The memo only grows, and its mapping-node entries keep their values. *)
Definition memo_ext (counts counts' : counts_t) : Prop :=
  (∀ k v, counts !! inl k = Some v → counts' !! inl k = Some v) ∧
  (∀ k, is_Some (counts !! k) → is_Some (counts' !! k)).

(** What a call of [count_mprs] on [m] establishes. *)
Definition count_post (g : recon_graph) (m : mapping_node) (counts : counts_t)
    (n : Z) (counts' : counts_t) : Prop :=
  memo_inv g counts' ∧
  (∃ f, mpr_count f g m = Some n) ∧
  memo_ext counts counts' ∧
  (m ≠ sentinel → counts' !! inl m = Some n).

(** The candidate total of an event as the median selector's contract has
    it: the frequency of the event minus 0.5, added to the running sums of
    the children that are looked up: the child of a Loss event, both
    children of any other event. *)
Definition symmetric_total (sum_freqs : sum_freqs_t) (event_scores : scored_t)
    (e : event) (t : float) : Prop :=
  if decide (event_type e = "L"%string) then
    ∃ p1 f, sum_freqs !! child1 e = Some p1 ∧ event_scores !! e = Some f ∧
            t = (p1.2 + f - 0.5)%float
  else
    ∃ p1 p2 f, sum_freqs !! child1 e = Some p1 ∧ sum_freqs !! child2 e = Some p2 ∧
               event_scores !! e = Some f ∧ t = (p1.2 + p2.2 + f - 0.5)%float.

(** A float that is not NaN equals itself. *)
Definition not_nan (x : float) : Prop := (x =? x)%float = true.

(** ** Example inputs *)

Definition nd (g s : string) : mapping_node := (Some g, Some s).

(** A node with two tied events: a loss towards [a] and a loss towards [b]. *)
Definition tied_dict : recon_graph :=
  <[nd "r" "R" := [("L"%string, nd "r" "A", sentinel); ("L"%string, nd "r" "B", sentinel)]]>
  (<[nd "r" "A" := [contemporary]]>
  (<[nd "r" "B" := [contemporary]]> ∅)).

(** [tied_dict] and, off the walk from its root, a key whose event leads
    out of the dictionary. *)
Definition tied_dangling : recon_graph :=
  <[nd "z" "Z" := [("L"%string, nd "q" "Q", sentinel)]]> tied_dict.

(** What the first-event walk from the root of [tied_dict] collects. *)
Definition tied_walk : recon_graph :=
  <[nd "r" "R" := [("L"%string, nd "r" "A", sentinel); ("L"%string, nd "r" "B", sentinel)]]>
  (<[nd "r" "A" := [contemporary]]> ∅).

Definition tied_depth (m : mapping_node) : nat :=
  if decide (m = nd "r" "R") then 1 else 0.

(** Event frequencies for [tied_dict]: the two losses occur in half of the
    reconciliations each. *)
Definition tied_scores : scored_t :=
  <[("L"%string, nd "r" "A", sentinel) := half]>
  (<[("L"%string, nd "r" "B", sentinel) := half]>
  (<[contemporary := 1%float]> ∅)).

Definition tied_postorder : list mapping_node :=
  [nd "r" "A"; nd "r" "B"; nd "r" "R"].

(** [tied_scores] with another frequency for the Contemporary event. *)
Definition tied_scores' : scored_t := <[contemporary := 0.25%float]> tied_scores.

(** A root with one speciation whose two children offer two losses each:
    four reconciliations. *)
Definition g_four : recon_graph :=
  <[nd "r" "A" := [("S"%string, nd "a" "B", nd "b" "C")]]>
  (<[nd "a" "B" := [("L"%string, nd "a" "D", sentinel); ("L"%string, nd "a" "E", sentinel)]]>
  (<[nd "b" "C" := [("L"%string, nd "b" "F", sentinel); ("L"%string, nd "b" "G", sentinel)]]>
  (<[nd "a" "D" := [contemporary]]>
  (<[nd "a" "E" := [contemporary]]>
  (<[nd "b" "F" := [contemporary]]>
  (<[nd "b" "G" := [contemporary]]> ∅)))))).

(** Its mapping nodes, root first. *)
Definition l_four : list mapping_node :=
  [nd "r" "A"; nd "a" "B"; nd "b" "C"; nd "a" "D"; nd "a" "E"; nd "b" "F"; nd "b" "G"].

(** A root whose only event leads to a mapping node without events. *)
Definition g_dead : recon_graph :=
  <[nd "r" "A" := [("L"%string, nd "r" "B", sentinel)]]>
  (<[nd "r" "B" := []]> ∅).

Definition l_dead : list mapping_node := [nd "r" "A"; nd "r" "B"].

Definition depth_four (m : mapping_node) : nat :=
  if decide (m = nd "r" "A") then 2
  else if decide (m ∈ [nd "a" "B"; nd "b" "C"]) then 1 else 0.

(** The table of the first loop of [compute_median] on [tied_dict]. *)
Definition tied_sum_freqs : sum_freqs_t :=
  <[nd "r" "R" := ([("L"%string, nd "r" "A", sentinel); ("L"%string, nd "r" "B", sentinel)],
                   0.5%float)]>
  (<[nd "r" "A" := ([contemporary], half)]>
  (<[nd "r" "B" := ([contemporary], half)]> ∅)).

(** Frequencies that differ in the last place: one tenth, and the float
    just below it. *)
Definition close_scores : scored_t :=
  <[("L"%string, nd "r" "A", sentinel) := 0x1.999999999999ap-4%float]>
  (<[("L"%string, nd "r" "B", sentinel) := 0x1.9999999999999p-4%float]> ∅).

(** The scores that [generate_scores], identifiers bound, returns for
    [g_four]. *)
Definition scores_four : scored_t :=
  <[("S"%string, nd "a" "B", nd "b" "C") := 4%float]>
  (<[("L"%string, nd "a" "D", sentinel) := 2%float]>
  (<[("L"%string, nd "a" "E", sentinel) := 2%float]>
  (<[("L"%string, nd "b" "F", sentinel) := 2%float]>
  (<[("L"%string, nd "b" "G", sentinel) := 2%float]>
  (<[contemporary := 2%float]> ∅))))).

(** The memo after counting [g_dead]. *)
Definition counts_dead : counts_t :=
  <[inl (nd "r" "A") := 0%Z]>
  (<[inl (nd "r" "B") := 0%Z]>
  (<[inr ("L"%string, nd "r" "B", sentinel) := 0%Z]> ∅)).

(** The memo after counting [g_four] from its root. *)
Definition counts_four : counts_t :=
  <[inl (nd "r" "A") := 4%Z]>
  (<[inl (nd "a" "B") := 2%Z]>
  (<[inl (nd "b" "C") := 2%Z]>
  (<[inl (nd "a" "D") := 1%Z]>
  (<[inl (nd "a" "E") := 1%Z]>
  (<[inl (nd "b" "F") := 1%Z]>
  (<[inl (nd "b" "G") := 1%Z]>
  (<[inr ("S"%string, nd "a" "B", nd "b" "C") := 4%Z]>
  (<[inr ("L"%string, nd "a" "D", sentinel) := 1%Z]>
  (<[inr ("L"%string, nd "a" "E", sentinel) := 1%Z]>
  (<[inr ("L"%string, nd "b" "F", sentinel) := 1%Z]>
  (<[inr ("L"%string, nd "b" "G", sentinel) := 1%Z]>
  (<[inr contemporary := 1%Z]> ∅)))))))))))).

(** * Properties *)

(** ** The mapping-node order *)

Section Sorting.

Lemma level_lookup_notin level x l : ∀ i (d : gmap node Z),
  x ∉ l → level_lookup level i l d !! x = d !! x.
Proof.
  induction l as [|y l IH]; intros i d Hnotin; simpl; [done|].
  apply not_elem_of_cons in Hnotin as [Hne Hnotin].
  rewrite IH by done.
  by apply lookup_insert_ne.
Qed.

Lemma level_lookup_position level x l : ∀ i (d : gmap node Z),
  NoDup l → x ∈ l →
  level_lookup level i l d !! x = Some (level (i + position x l)).
Proof.
  induction l as [|y l IH]; intros i d Hnd Hx; simpl.
  - by apply elem_of_nil in Hx.
  - apply NoDup_cons in Hnd as [Hy Hnd].
    destruct (decide (x = y)) as [->|Hne].
    + rewrite level_lookup_notin by done.
      rewrite lookup_insert_eq. by rewrite Nat.add_0_r.
    + apply elem_of_cons in Hx as [?|Hx]; [done|].
      rewrite IH by done. do 2 f_equal. lia.
Qed.

Lemma position_lt `{EqDecision A} (x : A) (l : list A) :
  x ∈ l → position x l < length l.
Proof.
  induction l as [|y l IH]; simpl; intros Hx; [by apply elem_of_nil in Hx|].
  destruct (decide (x = y)); [lia|].
  apply elem_of_cons in Hx as [?|Hx]; [done|].
  specialize (IH Hx). lia.
Qed.

Lemma position_lookup `{EqDecision A} (x : A) (l : list A) :
  x ∈ l → l !! position x l = Some x.
Proof.
  induction l as [|y l IH]; simpl; intros Hx; [by apply elem_of_nil in Hx|].
  destruct (decide (x = y)) as [->|]; [done|].
  apply elem_of_cons in Hx as [?|Hx]; [done|].
  by apply IH.
Qed.

Lemma sort_keys_total (key : mapping_node → result Z) (f : mapping_node → Z) l :
  (∀ m, m ∈ l → key m = Ok (f m)) →
  sort_keys key l = Ok (map (fun m => (f m, m)) l).
Proof.
  induction l as [|x l IH]; intros Hk; simpl; [done|].
  rewrite Hk by set_solver. simpl.
  rewrite IH by (intros; apply Hk; set_solver). done.
Qed.

Lemma insert_sorted_perm x l : insert_sorted x l ≡ₚ x :: l.
Proof.
  induction l as [|y l IH]; simpl; [done|].
  destruct (x.1 <=? y.1)%Z; [done|].
  rewrite IH. apply perm_swap.
Qed.

Lemma sorted_by_key_perm l : sorted_by_key l ≡ₚ l.
Proof.
  induction l as [|x l IH]; simpl; [done|].
  rewrite insert_sorted_perm. by constructor.
Qed.

Lemma insert_sorted_sorted x l :
  StronglySorted (fun a b : Z * mapping_node => (a.1 ≤ b.1)%Z) l →
  StronglySorted (fun a b : Z * mapping_node => (a.1 ≤ b.1)%Z) (insert_sorted x l).
Proof.
  induction 1 as [|y l Hs IH Hy]; simpl.
  - repeat constructor.
  - destruct (Z.leb_spec x.1 y.1).
    + constructor; [by constructor|].
      constructor; [done|].
      eapply Forall_impl; [exact Hy|]. simpl. intros; lia.
    + constructor; [done|].
      rewrite insert_sorted_perm. constructor; [lia|done].
Qed.

Lemma sorted_by_key_sorted l :
  StronglySorted (fun a b : Z * mapping_node => (a.1 ≤ b.1)%Z) (sorted_by_key l).
Proof.
  induction l as [|x l IH]; simpl; [constructor|].
  by apply insert_sorted_sorted.
Qed.

Lemma StronglySorted_keyed (f : mapping_node → Z) (l : list (Z * mapping_node)) :
  Forall (fun p => p.1 = f p.2) l →
  StronglySorted (fun a b : Z * mapping_node => (a.1 ≤ b.1)%Z) l →
  StronglySorted (fun a b => (f a ≤ f b)%Z) (l.*2).
Proof.
  intros Hf Hs. induction Hs as [|y l Hs IH Hy]; simpl; [constructor|].
  apply Forall_cons in Hf as [Hy1 Hf].
  constructor; [by apply IH|].
  apply Forall_fmap. rewrite Forall_forall in Hy, Hf |- *.
  intros p Hp. simpl. rewrite <- Hy1, <- (Hf p Hp). by apply Hy.
Qed.

Lemma rank_lex gl sl m1 m2 :
  m1.2 ∈ sl → m2.2 ∈ sl →
  (rank gl sl m1 ≤ rank gl sl m2)%Z ↔ lex_le gl sl m1 m2.
Proof.
  intros H1 H2. apply position_lt in H1, H2.
  unfold rank, lex_le. split.
  - intros Hr.
    destruct (decide (position m1.1 gl < position m2.1 gl)); [by left|].
    right.
    assert (position m1.1 gl = position m2.1 gl ∨
            position m2.1 gl < position m1.1 gl) as [He|Hlt] by lia.
    + split; [done|]. rewrite He in Hr. lia.
    + nia.
  - intros [Hlt|[He Hle]]; [nia|]. rewrite He. lia.
Qed.

Lemma mapping_node_sort_ok gl sl ml :
  NoDup gl → NoDup sl →
  (∀ m, m ∈ ml → m.1 ∈ gl ∧ m.2 ∈ sl) →
  ∃ sorted,
    mapping_node_sort gl sl ml = Ok sorted ∧
    sorted ≡ₚ ml ∧
    StronglySorted (fun a b => (rank gl sl a ≤ rank gl sl b)%Z) sorted.
Proof.
  intros Hg Hs Hin. unfold mapping_node_sort.
  erewrite (sort_keys_total _ (rank gl sl)); last first.
  { intros m Hm. destruct (Hin m Hm) as [H1 H2].
    unfold getitem.
    rewrite (level_lookup_position _ _ _ 0 ∅ Hg H1).
    rewrite (level_lookup_position _ _ _ 0 ∅ Hs H2). done. }
  simpl. eexists; split; [done|]. split.
  - rewrite sorted_by_key_perm. rewrite <- list_fmap_compose.
    by rewrite list_fmap_id.
  - apply StronglySorted_keyed; [|apply sorted_by_key_sorted].
    rewrite sorted_by_key_perm. apply Forall_fmap, Forall_true. done.
Qed.

Lemma StronglySorted_lex gl sl (l : list mapping_node) :
  (∀ m, m ∈ l → m.2 ∈ sl) →
  StronglySorted (fun a b => (rank gl sl a ≤ rank gl sl b)%Z) l →
  StronglySorted (lex_le gl sl) l.
Proof.
  intros Hin Hs. induction Hs as [|y l Hs IH Hy]; [constructor|].
  constructor.
  - apply IH. intros m Hm. apply Hin. by right.
  - rewrite Forall_forall in Hy |- *. intros m Hm.
    apply rank_lex; [apply Hin; by left|apply Hin; by right|by apply Hy].
Qed.

(** C8: for ordered gene and species node lists covering the components of
    the given mapping nodes, [mapping_node_sort] returns the mapping nodes
    (a permutation of the input) sorted by the rank
    [gene_index * species_count + species_index], and this is the
    lexicographic order: by gene position first and, among equal gene
    components, by species position, whatever the sizes of the two lists. *)
Theorem mapping_node_sort_lexicographic gl sl ml :
  NoDup gl → NoDup sl →
  (∀ m, m ∈ ml → m.1 ∈ gl ∧ m.2 ∈ sl) →
  ∃ sorted,
    mapping_node_sort gl sl ml = Ok sorted ∧
    sorted ≡ₚ ml ∧
    StronglySorted (fun a b => (rank gl sl a ≤ rank gl sl b)%Z) sorted ∧
    StronglySorted (lex_le gl sl) sorted ∧
    (∀ a b, a ∈ ml → b ∈ ml →
       (rank gl sl a ≤ rank gl sl b)%Z ↔ lex_le gl sl a b).
Proof.
  intros Hg Hs Hin.
  destruct (mapping_node_sort_ok gl sl ml Hg Hs Hin) as (sorted & Hr & Hp & Hso).
  exists sorted. repeat split; try done.
  - apply StronglySorted_lex; [|done].
    intros m Hm. rewrite Hp in Hm. by apply Hin.
  - apply rank_lex; by apply Hin.
  - apply rank_lex; by apply Hin.
Qed.

Lemma mapping_node_sort_lexicographic_witness :
  ∃ sorted,
    mapping_node_sort [Some "g0"; Some "g1"]%string [Some "S0"; Some "S1"; Some "S2"]%string
      [(Some "g1", Some "S0"); (Some "g0", Some "S2"); (Some "g0", Some "S1")]%string
    = Ok sorted ∧
    sorted = [(Some "g0", Some "S1"); (Some "g0", Some "S2"); (Some "g1", Some "S0")]%string.
Proof.
  destruct (mapping_node_sort_lexicographic
              [Some "g0"; Some "g1"]%string [Some "S0"; Some "S1"; Some "S2"]%string
              [(Some "g1", Some "S0"); (Some "g0", Some "S2"); (Some "g0", Some "S1")]%string)
    as (sorted & Hr & _).
  - compute_done.
  - compute_done.
  - apply Forall_forall. compute_done.
  - exists sorted. split; [exact Hr|].
    vm_compute in Hr. by injection Hr.
Defined.

End Sorting.

(** ** Subgraph check and path extraction *)

Section Subgraph.

Lemma check_subgraph_spec (g sub : recon_graph) :
  check_subgraph g sub = true ↔
  ∀ k evs, sub !! k = Some evs →
    ∃ evs', g !! k = Some evs' ∧ ∀ e, e ∈ evs → e ∈ evs'.
Proof.
  unfold check_subgraph. rewrite forallb_forall. split.
  - intros Hall k evs Hk.
    specialize (Hall (k, evs)). simpl in Hall.
    rewrite <- list_elem_of_In, elem_of_map_to_list in Hall.
    specialize (Hall Hk). destruct (g !! k) as [evs'|]; [|done].
    exists evs'. split; [done|]. intros e He.
    rewrite forallb_forall in Hall.
    apply list_elem_of_In, Hall in He. by apply bool_decide_eq_true in He.
  - intros Hsub [k evs] Hin.
    rewrite <- list_elem_of_In, elem_of_map_to_list in Hin.
    destruct (Hsub k evs Hin) as (evs' & -> & Hevs).
    apply forallb_forall. intros e He.
    apply bool_decide_eq_true, Hevs. by apply list_elem_of_In.
Qed.

Lemma single_path_check g sub : single_path_of g sub → check_subgraph g sub = true.
Proof.
  intros Hs. apply check_subgraph_spec. intros k evs Hk.
  destruct (Hs k evs Hk) as (e & evs0 & -> & Hg & He).
  exists evs0. split; [done|]. intros e' He'.
  apply list_elem_of_singleton in He'. by subst.
Qed.

Lemma lookup_dict_update {V} (d other : gmap mapping_node V) k :
  dict_update d other !! k =
  match other !! k with Some v => Some v | None => d !! k end.
Proof.
  unfold dict_update. rewrite lookup_union.
  destruct (other !! k), (d !! k); done.
Qed.

Lemma single_path_update g d other :
  single_path_of g d → single_path_of g other → single_path_of g (dict_update d other).
Proof.
  intros Hd Ho m evs. rewrite lookup_dict_update.
  destruct (other !! m) eqn:E; [intros [= <-]; by apply Ho|apply Hd].
Qed.

Lemma single_path_start g m e evs0 :
  g !! m = Some evs0 → e ∈ evs0 →
  single_path_of g (dict_update ∅ {[m := [e]]}).
Proof.
  intros Hg He k evs. rewrite lookup_dict_update.
  destruct (decide (k = m)) as [->|Hne].
  - rewrite lookup_singleton_eq. intros [= <-]. eauto.
  - rewrite lookup_singleton_ne by done. by rewrite lookup_empty.
Qed.

Lemma random_choice_elem {A} draw (seq : list A) :
  seq ≠ [] → ∃ x, random_choice draw seq = Ok x ∧ x ∈ seq.
Proof.
  intros Hne. unfold random_choice.
  assert (draw mod length seq < length seq) as Hlt.
  { apply Nat.mod_upper_bound. destruct seq; [done|simpl; lia]. }
  apply lookup_lt_is_Some in Hlt as [x Hx]. rewrite Hx.
  exists x. split; [done|]. by eapply list_elem_of_lookup_2.
Qed.

Lemma choose_random_median_ok g depth :
  nonempty_events g → walkable g depth →
  ∀ fuel rand k m, is_Some (g !! m) → depth m < fuel →
    ∃ res k', choose_random_median fuel rand k g m = Ok (res, k') ∧
              single_path_of g res ∧ is_Some (res !! m).
Proof.
  intros Hne Hw. induction fuel as [|fuel IH]; intros rand k m [evs Hm] Hd; [lia|].
  simpl. unfold getitem. rewrite Hm. simpl.
  destruct (random_choice_elem (rand k) evs (Hne _ _ Hm)) as (e & -> & He). simpl.
  pose proof (single_path_start g m e evs Hm He) as Hstart.
  assert (is_Some (dict_update (∅ : recon_graph) {[m := [e]]} !! m)) as Hroot.
  { rewrite lookup_dict_update, lookup_singleton_eq. eauto. }
  assert (∀ c, c ∈ followed e → is_Some (g !! c) ∧ depth c < fuel) as Hc.
  { intros c Hin. destruct (Hw m evs e c Hm He Hin). split; [done|lia]. }
  assert (∀ (d r : recon_graph), is_Some (d !! m) → is_Some (dict_update d r !! m)) as Hkeep.
  { intros d r [v Hv]. rewrite lookup_dict_update, Hv. destruct (r !! m); eauto. }
  unfold followed in Hc.
  destruct (decide (event_type e = "L"%string)) as [HL|HL].
  - destruct (Hc (child1 e)) as [Hk1 Hd1]; [by left|].
    destruct (IH rand (S k) _ Hk1 Hd1) as (r1 & k1 & -> & Hs1 & _). simpl.
    rewrite single_path_check by (by apply single_path_update).
    eexists _, _. split; [done|]. split; [by apply single_path_update|by apply Hkeep].
  - destruct (decide (event_type e ∈ ["T"; "S"; "D"]%string)) as [HT|HT].
    + destruct (Hc (child1 e)) as [Hk1 Hd1]; [by left|].
      destruct (Hc (child2 e)) as [Hk2 Hd2]; [right; by left|].
      destruct (IH rand (S k) _ Hk1 Hd1) as (r1 & k1 & -> & Hs1 & _). simpl.
      destruct (IH rand k1 _ Hk2 Hd2) as (r2 & k2 & -> & Hs2 & _). simpl.
      assert (single_path_of g
                (dict_update (dict_update (dict_update ∅ {[m := [e]]}) r1) r2)) as Hs.
      { apply single_path_update; [by apply single_path_update|done]. }
      rewrite single_path_check by done.
      eexists _, _. split; [done|].
      split; [done|by do 2 apply Hkeep].
    + simpl. rewrite single_path_check by done.
      eexists _, _. split; [done|]. by split.
Qed.

(** C9: for a median reconciliation graph (non-empty event lists, acyclic)
    closed under the children of its events, every root key and every
    sequence of random draws, [choose_random_median] returns a dictionary
    that maps each included mapping node to a one-element list whose event
    is taken from that node's list in the median graph; the result passes
    [check_subgraph] against the median graph, so the assertion holds in
    every recursive call (any failure would surface as [AssertionError]). *)
Theorem choose_random_median_subgraph g depth fuel rand k root :
  nonempty_events g → walkable g depth →
  is_Some (g !! root) → depth root < fuel →
  ∃ res k',
    choose_random_median fuel rand k g root = Ok (res, k') ∧
    single_path_of g res ∧
    is_Some (res !! root) ∧
    check_subgraph g res = true.
Proof.
  intros Hne Hw Hroot Hd.
  destruct (choose_random_median_ok g depth Hne Hw fuel rand k root Hroot Hd)
    as (res & k' & Hr & Hs & Hin).
  exists res, k'. repeat split; try done. by apply single_path_check.
Qed.

Lemma walkable_intro (g : recon_graph) depth :
  map_Forall (fun m evs =>
    Forall (fun e => Forall (fun c => is_Some (g !! c) ∧ depth c < depth m)
                            (followed e)) evs) g →
  walkable g depth.
Proof.
  intros Hall m evs e c Hm He Hc.
  specialize (Hall m evs Hm). simpl in Hall.
  rewrite Forall_forall in Hall. specialize (Hall e He).
  rewrite Forall_forall in Hall. by apply Hall.
Qed.

Lemma nonempty_events_intro (g : recon_graph) :
  map_Forall (fun _ evs => evs ≠ []) g → nonempty_events g.
Proof. intros Hall m evs Hm. by apply (Hall m evs Hm). Qed.



Lemma followed_loss e : event_type e = "L"%string → followed e = [child1 e].
Proof. intros H. unfold followed. by rewrite decide_True. Qed.

Lemma followed_two e :
  event_type e ≠ "L"%string → event_type e ∈ ["T"; "S"; "D"]%string →
  followed e = [child1 e; child2 e].
Proof. intros H1 H2. unfold followed. rewrite decide_False by done. by rewrite decide_True. Qed.

Lemma followed_none e :
  event_type e ≠ "L"%string → event_type e ∉ ["T"; "S"; "D"]%string →
  followed e = [].
Proof. intros H1 H2. unfold followed. rewrite decide_False by done. by rewrite decide_False. Qed.

Lemma on_first_walk_trans d r c m :
  on_first_walk d r c → on_first_walk d c m → on_first_walk d r m.
Proof.
  intros Hrc Hcm. induction Hcm as [|m e evs c' _ IH Hm Hc']; [done|].
  by eapply walk_step.
Qed.

Lemma on_first_walk_inv d r e evs m :
  d !! r = Some (e :: evs) → on_first_walk d r m →
  m = r ∨ ∃ c, c ∈ followed e ∧ on_first_walk d c m.
Proof.
  intros Hr Hm. induction Hm as [|m e' evs' c _ IH Hm Hc]; [by left|right].
  destruct IH as [->|(c0 & Hc0 & Hwalk)].
  - rewrite Hr in Hm. injection Hm as <- <-. exists c. split; [done|constructor].
  - exists c0. split; [done|]. by eapply walk_step.
Qed.

(** The dictionary built by [build_median_recon_graph] is the event
    dictionary restricted to the mapping nodes of the first-event walk. *)
Lemma build_median_recon_graph_exact (d : recon_graph) (depth : mapping_node → nat) :
  ∀ fuel root,
    (∀ m, on_first_walk d root m → ∃ e evs, d !! m = Some (e :: evs)) →
    (∀ m e evs c, on_first_walk d root m → d !! m = Some (e :: evs) →
       c ∈ followed e → depth c < depth m) →
    depth root < fuel →
    ∃ res, build_median_recon_graph fuel d root = Ok res ∧
           ∀ m evs, res !! m = Some evs ↔ on_first_walk d root m ∧ d !! m = Some evs.
Proof.
  induction fuel as [|fuel IH]; intros root Hkeys Hdepth Hfuel; [lia|].
  destruct (Hkeys root (walk_root d root)) as (e & evs & Hroot).
  simpl. unfold getitem. rewrite Hroot. simpl.
  set (start := dict_update (∅ : recon_graph) {[root := e :: evs]}).
  assert (∀ m evs', start !! m = Some evs' ↔ m = root ∧ evs' = e :: evs) as Hstart.
  { intros m evs'. unfold start. rewrite lookup_dict_update.
    destruct (decide (m = root)) as [->|Hn].
    - rewrite lookup_singleton_eq. split; [by intros [= <-]|by intros [_ ->]].
    - rewrite lookup_singleton_ne by done. rewrite lookup_empty.
      split; [done|by intros [? _]]. }
  (* the recursive call on a followed child *)
  assert (∀ c, c ∈ followed e →
            ∃ rc, build_median_recon_graph fuel d c = Ok rc ∧
                  ∀ m evs', rc !! m = Some evs' ↔
                            on_first_walk d c m ∧ d !! m = Some evs') as Hchild.
  { intros c Hc.
    assert (on_first_walk d root c) as Hwc by (eapply walk_step; [constructor|done..]).
    apply IH.
    - intros m Hm. apply Hkeys. by eapply on_first_walk_trans.
    - intros m e' evs' c' Hm. apply Hdepth. by eapply on_first_walk_trans.
    - pose proof (Hdepth root e evs c (walk_root d root) Hroot Hc). lia. }
  assert (∀ c m, c ∈ followed e → on_first_walk d c m → on_first_walk d root m) as Hup.
  { intros c m Hc Hm. eapply on_first_walk_trans; [|exact Hm].
    eapply walk_step; [constructor|done..]. }
  destruct (decide (event_type e = "L"%string)) as [HL|HL].
  - pose proof (followed_loss e HL) as Hf. rewrite Hf in Hchild, Hup.
    destruct (Hchild (child1 e)) as (r1 & -> & Hr1); [by left|]. simpl.
    eexists. split; [done|]. intros m evs'. rewrite lookup_dict_update. split.
    + destruct (r1 !! m) as [v|] eqn:E.
      * intros [= <-]. apply Hr1 in E as [Hw Hd]. split; [|done].
        eapply Hup; [by left|done].
      * intros Hm. apply Hstart in Hm as [-> ->]. split; [constructor|done].
    + intros [Hw Hd].
      destruct (on_first_walk_inv d root e evs m Hroot Hw) as [->|(c & Hc & Hwc)].
      * destruct (r1 !! root) as [v|] eqn:E.
        -- apply Hr1 in E as [_ E]. congruence.
        -- apply Hstart. split; [done|congruence].
      * rewrite Hf in Hc. apply list_elem_of_singleton in Hc as ->.
        by rewrite (proj2 (Hr1 m evs') (conj Hwc Hd)).
  - destruct (decide (event_type e ∈ ["T"; "S"; "D"]%string)) as [HT|HT].
    + pose proof (followed_two e HL HT) as Hf. rewrite Hf in Hchild, Hup.
      destruct (Hchild (child1 e)) as (r1 & -> & Hr1); [by left|]. simpl.
      destruct (Hchild (child2 e)) as (r2 & -> & Hr2); [right; by left|]. simpl.
      eexists. split; [done|]. intros m evs'. rewrite !lookup_dict_update. split.
      * destruct (r2 !! m) as [v|] eqn:E2; [|destruct (r1 !! m) as [v|] eqn:E1].
        -- intros [= <-]. apply Hr2 in E2 as [Hw Hd]. split; [|done].
           eapply Hup; [right; by left|done].
        -- intros [= <-]. apply Hr1 in E1 as [Hw Hd]. split; [|done].
           eapply Hup; [by left|done].
        -- intros Hm. apply Hstart in Hm as [-> ->]. split; [constructor|done].
      * intros [Hw Hd].
        destruct (on_first_walk_inv d root e evs m Hroot Hw) as [->|(c & Hc & Hwc)].
        -- destruct (r2 !! root) as [v|] eqn:E2.
           { apply Hr2 in E2 as [_ E2]. congruence. }
           destruct (r1 !! root) as [v|] eqn:E1.
           { apply Hr1 in E1 as [_ E1]. congruence. }
           apply Hstart. split; [done|congruence].
        -- rewrite Hf in Hc.
           destruct (r2 !! m) as [v|] eqn:E2.
           { apply Hr2 in E2 as [_ E2]. congruence. }
           apply elem_of_cons in Hc as [->|Hc].
           ++ by rewrite (proj2 (Hr1 m evs') (conj Hwc Hd)).
           ++ apply list_elem_of_singleton in Hc as ->.
              rewrite (proj2 (Hr2 m evs') (conj Hwc Hd)) in E2. done.
    + pose proof (followed_none e HL HT) as Hf.
      eexists. split; [done|]. intros m evs'. split.
      * intros Hm. apply Hstart in Hm as [-> ->]. split; [constructor|done].
      * intros [Hw Hd].
        destruct (on_first_walk_inv d root e evs m Hroot Hw) as [->|(c & Hc & _)].
        -- apply Hstart. split; [done|congruence].
        -- rewrite Hf in Hc. by apply elem_of_nil in Hc.
Qed.

(** The conditions of the walk, from a check on a list of mapping nodes. *)
Lemma first_walk_check_sound (d : recon_graph) (depth : mapping_node → nat)
    (nodes : list mapping_node) (root : mapping_node) :
  root ∈ nodes → first_walk_check d depth nodes = true →
  (∀ m, on_first_walk d root m → ∃ e evs, d !! m = Some (e :: evs)) ∧
  (∀ m e evs c, on_first_walk d root m → d !! m = Some (e :: evs) →
     c ∈ followed e → depth c < depth m).
Proof.
  intros Hroot Hcheck. unfold first_walk_check in Hcheck.
  rewrite forallb_forall in Hcheck.
  assert (∀ m, m ∈ nodes →
            ∃ e evs, d !! m = Some (e :: evs) ∧
                     ∀ c, c ∈ followed e → c ∈ nodes ∧ depth c < depth m) as Hnode.
  { intros m Hm. apply list_elem_of_In, Hcheck in Hm.
    destruct (d !! m) as [[|e evs]|]; try done.
    exists e, evs. split; [done|]. intros c Hc.
    rewrite forallb_forall in Hm. apply list_elem_of_In, Hm in Hc.
    apply andb_prop in Hc as [H1 H2].
    split; [by apply bool_decide_eq_true in H1|by apply Nat.ltb_lt]. }
  assert (∀ m, on_first_walk d root m → m ∈ nodes) as Hin.
  { intros m Hm. induction Hm as [|m e evs c _ IH Hd Hc]; [done|].
    destruct (Hnode m IH) as (e' & evs' & Hd' & Hcl).
    rewrite Hd in Hd'. injection Hd' as <- <-. by apply Hcl. }
  split.
  - intros m Hm. destruct (Hnode m (Hin m Hm)) as (e & evs & Hd & _). eauto.
  - intros m e evs c Hm Hd Hc.
    destruct (Hnode m (Hin m Hm)) as (e' & evs' & Hd' & Hcl).
    rewrite Hd in Hd'. injection Hd' as <- <-. by apply Hcl.
Qed.

(** C5, as the code has it: when every mapping node on the first-event
    walk from the root is a key of the event dictionary with a non-empty
    event list, and the walk meets no mapping node again below itself,
    [build_median_recon_graph] returns exactly the mapping nodes of that
    walk (the root and, recursively, the single child of a first Loss
    event and both children of a first S/D/T event), each with its whole
    event list in the dictionary, ties included; so each mapping node of
    the result has exactly one event when the lists on the walk are
    one-element lists. *)
Theorem build_median_recon_graph_walk (d : recon_graph) (depth : mapping_node → nat)
    (fuel : nat) (root : mapping_node) :
  (∀ m, on_first_walk d root m → ∃ e evs, d !! m = Some (e :: evs)) →
  (∀ m e evs c, on_first_walk d root m → d !! m = Some (e :: evs) →
     c ∈ followed e → depth c < depth m) →
  depth root < fuel →
  ∃ res,
    build_median_recon_graph fuel d root = Ok res ∧
    (∀ m evs, res !! m = Some evs ↔ on_first_walk d root m ∧ d !! m = Some evs) ∧
    ((∀ m evs, on_first_walk d root m → d !! m = Some evs → ∃ e, evs = [e]) →
     ∀ m evs, res !! m = Some evs → ∃ e, evs = [e]).
Proof.
  intros Hkeys Hdepth Hfuel.
  destruct (build_median_recon_graph_exact d depth fuel root Hkeys Hdepth Hfuel)
    as (res & Hr & Hres).
  exists res. split; [done|]. split; [done|].
  intros Hone m evs Hm. apply Hres in Hm as [Hw Hd]. by eapply Hone.
Qed.

End Subgraph.

Lemma choose_random_median_subgraph_witness :
  ∃ res k',
    choose_random_median 2 (fun _ => 1) 0 tied_dict (nd "r" "R") = Ok (res, k') ∧
    single_path_of tied_dict res ∧
    is_Some (res !! nd "r" "R") ∧
    check_subgraph tied_dict res = true.
Proof.
  apply (choose_random_median_subgraph tied_dict tied_depth).
  - apply nonempty_events_intro. compute_done.
  - apply walkable_intro. compute_done.
  - compute_done.
  - compute_done.
Defined.

Lemma build_median_recon_graph_walk_witness :
  ∃ res,
    build_median_recon_graph 2 tied_dangling (nd "r" "R") = Ok res ∧
    (∀ m evs, res !! m = Some evs ↔
       on_first_walk tied_dangling (nd "r" "R") m ∧ tied_dangling !! m = Some evs).
Proof.
  destruct (first_walk_check_sound tied_dangling tied_depth
              [nd "r" "R"; nd "r" "A"] (nd "r" "R")) as [Hkeys Hdepth].
  - compute_done.
  - compute_done.
  - destruct (build_median_recon_graph_walk tied_dangling tied_depth 2 (nd "r" "R")
                Hkeys Hdepth) as (res & Hr & Hres & _).
    + compute_done.
    + exists res. by split.
Defined.

(** C5 as stated fails: with two tied events under the root the returned
    dictionary lists both of them under the root, not only the first. *)
Lemma build_median_recon_graph_keeps_ties :
  nonempty_events tied_dict ∧
  is_Some (tied_dict !! nd "r" "R") ∧
  ∃ res,
    build_median_recon_graph 2 tied_dict (nd "r" "R") = Ok res ∧
    res !! nd "r" "R" =
      Some [("L"%string, nd "r" "A", sentinel); ("L"%string, nd "r" "B", sentinel)] ∧
    ¬ (∀ m evs, res !! m = Some evs → ∃ e, evs = [e]).
Proof.
  split; [apply nonempty_events_intro; compute_done|].
  split; [compute_done|].
  exists tied_walk. split; [compute_done|].
  split; [compute_done|].
  intros Hone.
  assert (tied_walk !! nd "r" "R" =
          Some [("L"%string, nd "r" "A", sentinel); ("L"%string, nd "r" "B", sentinel)])
    as Hroot by (compute_done).
  destruct (Hone _ _ Hroot) as [e He]. discriminate He.
Qed.

(** ** Order and equality of binary64 floats *)

Section FloatOrder.

Lemma SFcompare_antisym a b :
  SFcompare b a = CompOpp <$> SFcompare a b.
Proof.
  destruct a as [sa|sa| |sa ma ea], b as [sb|sb| |sb mb eb]; simpl;
    try (destruct sa); try (destruct sb); try done.
  - rewrite (Z.compare_antisym ea eb). destruct (ea ?= eb)%Z; simpl; try done.
    f_equal. change (Pos.compare_cont Eq mb ma) with (Pos.compare mb ma).
    change (Pos.compare_cont Eq ma mb) with (Pos.compare ma mb).
    rewrite (Pos.compare_antisym ma mb). by destruct (ma ?= mb)%positive.
  - rewrite (Z.compare_antisym ea eb). destruct (ea ?= eb)%Z; simpl; try done.
    f_equal. change (Pos.compare_cont Eq mb ma) with (Pos.compare mb ma).
    change (Pos.compare_cont Eq ma mb) with (Pos.compare ma mb).
    rewrite (Pos.compare_antisym ma mb). by destruct (ma ?= mb)%positive.
Qed.

Ltac cmp_cases :=
  repeat match goal with
  | |- context [(?a ?= ?b)%Z] => destruct (Z.compare_spec a b)
  | H : context [(?a ?= ?b)%Z] |- _ => destruct (Z.compare_spec a b)
  | |- context [Pos.compare_cont Eq ?a ?b] =>
      change (Pos.compare_cont Eq a b) with (Pos.compare a b);
      destruct (Pos.compare_spec a b)
  | H : context [Pos.compare_cont Eq ?a ?b] |- _ =>
      change (Pos.compare_cont Eq a b) with (Pos.compare a b) in H;
      destruct (Pos.compare_spec a b)
  end.

Lemma SFleb_trans a b c :
  SFleb a b = true → SFleb b c = true → SFleb a c = true.
Proof.
  unfold SFleb.
  destruct a as [sa|sa| |sa ma ea], b as [sb|sb| |sb mb eb], c as [sc|sc| |sc mc ec];
    simpl; try done;
    try (destruct sa); try (destruct sb); try (destruct sc); simpl; try done;
    cmp_cases; simpl; try done; try lia.
Qed.

Lemma SFcompare_is_Some a b :
  SFeqb a a = true → SFeqb b b = true → is_Some (SFcompare a b).
Proof. destruct a, b; simpl; try done; eauto. Qed.

Lemma float_leb_trans x y z :
  (x <=? y)%float = true → (y <=? z)%float = true → (x <=? z)%float = true.
Proof. rewrite !FloatAxioms.leb_spec. apply SFleb_trans. Qed.

Lemma float_eqb_leb x y :
  (x =? y)%float = ((x <=? y)%float && (y <=? x)%float).
Proof.
  rewrite FloatAxioms.eqb_spec, !FloatAxioms.leb_spec. unfold SFeqb, SFleb.
  rewrite (SFcompare_antisym (Prim2SF x) (Prim2SF y)).
  by destruct (SFcompare (Prim2SF x) (Prim2SF y)) as [[]|].
Qed.

Lemma float_ltb_leb x y :
  not_nan x → not_nan y → (x <? y)%float = negb (y <=? x)%float.
Proof.
  unfold not_nan. rewrite !FloatAxioms.eqb_spec, FloatAxioms.ltb_spec, FloatAxioms.leb_spec. intros Hx Hy.
  unfold SFltb, SFleb. rewrite (SFcompare_antisym (Prim2SF x) (Prim2SF y)).
  destruct (SFcompare_is_Some _ _ Hx Hy) as [c ->]. by destruct c.
Qed.

Lemma float_ltb_weak x y : (x <? y)%float = true → (x <=? y)%float = true.
Proof.
  rewrite FloatAxioms.ltb_spec, FloatAxioms.leb_spec. unfold SFltb, SFleb.
  by destruct (SFcompare (Prim2SF x) (Prim2SF y)) as [[]|].
Qed.

Lemma float_eqb_sym x y : (x =? y)%float = (y =? x)%float.
Proof. rewrite !float_eqb_leb. apply andb_comm. Qed.

Lemma float_eqb_not_nan x y : (x =? y)%float = true → not_nan x ∧ not_nan y.
Proof.
  unfold not_nan. rewrite !FloatAxioms.eqb_spec. unfold SFeqb.
  destruct (Prim2SF x), (Prim2SF y); simpl; try done;
    repeat match goal with s : bool |- _ => destruct s end; simpl; try done;
    intros _; split; cmp_cases; try done; lia.
Qed.

Lemma float_leb_refl x : not_nan x → (x <=? x)%float = true.
Proof.
  unfold not_nan. rewrite float_eqb_leb. by intros [? _]%andb_prop.
Qed.

Lemma float_eqb_congr a b c :
  (a =? b)%float = true → (a =? c)%float = (b =? c)%float.
Proof.
  rewrite !float_eqb_leb. intros [Hab Hba]%andb_prop.
  destruct (a <=? c)%float eqn:E1, (c <=? a)%float eqn:E2,
           (b <=? c)%float eqn:E3, (c <=? b)%float eqn:E4; try done; exfalso.
  all: repeat match goal with
       | H1 : (?x <=? ?y)%float = true, H2 : (?y <=? ?z)%float = true,
         H3 : (?x <=? ?z)%float = false |- _ =>
           rewrite (float_leb_trans x y z H1 H2) in H3; discriminate H3
       end.
Qed.

(** Among floats that are not NaN, what is not greater is at most. *)
Lemma float_not_ltb x y :
  not_nan x → not_nan y → (x <? y)%float = false → (y <=? x)%float = true.
Proof.
  intros Hx Hy. rewrite (float_ltb_leb x y Hx Hy).
  by destruct (y <=? x)%float.
Qed.

End FloatOrder.

(** ** The median selector *)

Section Median.

Lemma max_from_spec l : ∀ best,
  (max_from best l = best ∨ max_from best l ∈ l) ∧
  (not_nan best.2 → Forall (fun x : event * float => not_nan x.2) l →
   (best.2 <=? (max_from best l).2)%float = true ∧
   ∀ x, x ∈ l → (x.2 <=? (max_from best l).2)%float = true).
Proof.
  induction l as [|y l IH]; intros best; simpl.
  - split; [by left|]. intros Hb _. split; [by apply float_leb_refl|].
    intros x Hx. by apply elem_of_nil in Hx.
  - destruct (best.2 <? y.2)%float eqn:E.
    + destruct (IH y) as [Hin Hmax].
      split; [right; destruct Hin as [->|Hin]; [by left|by right]|].
      intros Hb [Hy Hl]%Forall_cons. destruct (Hmax Hy Hl) as [Hyr Hall].
      split; [eapply float_leb_trans; [by apply float_ltb_weak|done]|].
      intros x [->|Hx]%elem_of_cons; [done|by apply Hall].
    + destruct (IH best) as [Hin Hmax].
      split; [destruct Hin; [by left|right; by right]|].
      intros Hb [Hy Hl]%Forall_cons. destruct (Hmax Hb Hl) as [Hbr Hall].
      split; [done|].
      intros x [->|Hx]%elem_of_cons; [|by apply Hall].
      eapply float_leb_trans; [|exact Hbr]. by apply float_not_ltb.
Qed.

Lemma py_max_spec cands best :
  py_max cands = Ok best →
  best ∈ cands ∧
  (Forall (fun x : event * float => not_nan x.2) cands →
   ∀ x, x ∈ cands → (x.2 <=? best.2)%float = true).
Proof.
  destruct cands as [|y l]; simpl; [done|]. intros [= <-].
  destruct (max_from_spec l y) as [Hin Hmax].
  split; [destruct Hin as [->|Hin]; [by left|by right]|].
  intros [Hy Hl]%Forall_cons. destruct (Hmax Hy Hl) as [Hyr Hall].
  intros x [->|Hx]%elem_of_cons; [done|by apply Hall].
Qed.

Lemma candidate_total_formula (e : event) (sf : sum_freqs_t) (es : scored_t) (t : float) :
  candidate_total e sf es = Ok t ↔ symmetric_total sf es e t.
Proof.
  unfold candidate_total, symmetric_total, getitem.
  destruct (decide (event_type e = "L"%string)).
  - destruct (sf !! child1 e) as [p1|]; simpl.
    + destruct (es !! e) as [f|]; simpl.
      * split; [intros [= <-]; eauto|]. by intros (p & f' & [= <-] & [= <-] & ->).
      * split; [done|]. by intros (p & f' & _ & ? & _).
    + split; [done|]. by intros (p & f' & ? & _).
  - destruct (sf !! child1 e) as [p1|]; simpl.
    + destruct (sf !! child2 e) as [p2|]; simpl.
      * destruct (es !! e) as [f|]; simpl.
        -- split; [intros [= <-]; eauto 10|].
           by intros (p & p' & f' & [= <-] & [= <-] & [= <-] & ->).
        -- split; [done|]. by intros (p & p' & f' & _ & _ & ? & _).
      * split; [done|]. by intros (p & p' & f' & _ & ? & _).
    + split; [done|]. by intros (p & p' & f' & ? & _).
Qed.

Lemma candidate_totals_spec evs sf es cands :
  candidate_totals evs sf es = Ok cands →
  Forall2 (fun e x => x.1 = e ∧ symmetric_total sf es e x.2) evs cands.
Proof.
  revert cands. induction evs as [|e evs IH]; simpl; intros cands.
  - intros [= <-]. constructor.
  - destruct (candidate_total e sf es) as [c|] eqn:Ec; [simpl|done].
    destruct (candidate_totals evs sf es) as [cs|]; [simpl|done].
    intros [= <-]. constructor; [|by apply IH].
    split; [done|]. by apply candidate_total_formula.
Qed.

Lemma candidate_total_ext (e : event) (sf sf' : sum_freqs_t) (es : scored_t) (c : float) :
  (∀ k, is_Some (sf !! k) → sf' !! k = sf !! k) →
  candidate_total e sf es = Ok c → candidate_total e sf' es = Ok c.
Proof.
  intros Hext. unfold candidate_total, getitem.
  destruct (decide (event_type e = "L"%string)).
  - destruct (sf !! child1 e) eqn:E1; [|done].
    by rewrite (Hext (child1 e)), E1 by eauto.
  - destruct (sf !! child1 e) eqn:E1; [simpl|done].
    destruct (sf !! child2 e) eqn:E2; [|done].
    rewrite (Hext (child1 e)), E1 by eauto. simpl.
    by rewrite (Hext (child2 e)), E2 by eauto.
Qed.

Lemma candidate_totals_ext (evs : list event) (sf sf' : sum_freqs_t) (es : scored_t) cands :
  (∀ k, is_Some (sf !! k) → sf' !! k = sf !! k) →
  candidate_totals evs sf es = Ok cands → candidate_totals evs sf' es = Ok cands.
Proof.
  intros Hext. revert cands. induction evs as [|e evs IH]; simpl; intros cands; [done|].
  destruct (candidate_total e sf es) as [c|] eqn:Ec; [simpl|done].
  rewrite (candidate_total_ext _ _ _ _ _ Hext Ec). simpl.
  destruct (candidate_totals evs sf es) as [cs|]; [simpl|done].
  by rewrite (IH cs).
Qed.

(** One step of the first loop. *)
Lemma sum_freqs_loop_cons g es m rest sf0 sf :
  sum_freqs_loop g es (m :: rest) sf0 = Ok sf →
  ∃ evs entry,
    g !! m = Some evs ∧
    sum_freqs_loop g es rest (<[m := entry]> sf0) = Ok sf ∧
    ((evs = [contemporary] ∧ entry = ([contemporary], half)) ∨
     (evs ≠ [contemporary] ∧
      ∃ cands best,
        candidate_totals evs sf0 es = Ok cands ∧ py_max cands = Ok best ∧
        entry = (best_events_of cands best.2, best.2))).
Proof.
  simpl. unfold getitem. destruct (g !! m) as [evs|]; [simpl|done].
  destruct (decide (evs = [contemporary])) as [->|Hne].
  - intros H. eexists _, _. split; [done|]. split; [exact H|]. by left.
  - destruct (candidate_totals evs sf0 es) as [cands|] eqn:Ec; [simpl|done].
    destruct (py_max cands) as [best|] eqn:Eb; [simpl|done].
    intros H. eexists _, _. split; [done|]. split; [exact H|].
    right. split; [done|]. eauto.
Qed.

Lemma sum_freqs_loop_frame g es l : ∀ sf0 sf,
  sum_freqs_loop g es l sf0 = Ok sf → ∀ k, k ∉ l → sf !! k = sf0 !! k.
Proof.
  induction l as [|m l IH]; intros sf0 sf Hrun k Hk.
  - by injection Hrun as <-.
  - apply not_elem_of_cons in Hk as [Hne Hk].
    apply sum_freqs_loop_cons in Hrun as (evs & entry & _ & Hrun & _).
    rewrite (IH _ _ Hrun k Hk). by apply lookup_insert_ne.
Qed.

Lemma sum_freqs_loop_selected g es l : ∀ sf0 sf,
  NoDup l → (∀ k, k ∈ l → sf0 !! k = None) →
  sum_freqs_loop g es l sf0 = Ok sf →
  ∀ m evs, m ∈ l → g !! m = Some evs → evs ≠ [contemporary] →
    ∃ cands best,
      candidate_totals evs sf es = Ok cands ∧ py_max cands = Ok best ∧
      sf !! m = Some (best_events_of cands best.2, best.2).
Proof.
  induction l as [|x l IH]; intros sf0 sf Hnd Hfresh Hrun m evs Hm Hg Hne.
  - by apply elem_of_nil in Hm.
  - apply NoDup_cons in Hnd as [Hx Hnd].
    pose proof Hrun as Hrun0.
    apply sum_freqs_loop_cons in Hrun as (evs' & entry & Hg' & Hrun & Hentry).
    apply elem_of_cons in Hm as [->|Hm].
    + rewrite Hg in Hg'. injection Hg' as <-.
      destruct Hentry as [[? _]|(_ & cands & best & Hc & Hb & ->)]; [done|].
      exists cands, best. split; [|split; [done|]].
      * eapply candidate_totals_ext; [|exact Hc].
        intros k [v Hk]. apply (sum_freqs_loop_frame _ _ _ _ _ Hrun0).
        intros Hin. apply Hfresh in Hin. congruence.
      * rewrite (sum_freqs_loop_frame _ _ _ _ _ Hrun x Hx).
        by rewrite lookup_insert_eq.
    + eapply (IH _ _ Hnd); [|exact Hrun|done..].
      intros k Hk. rewrite lookup_insert_ne by (intros ->; done).
      apply Hfresh. by right.
Qed.

Lemma sum_freqs_loop_contemporary g es l : ∀ sf0 sf m,
  sum_freqs_loop g es l sf0 = Ok sf →
  g !! m = Some [contemporary] →
  m ∈ l ∨ sf0 !! m = Some ([contemporary], half) →
  sf !! m = Some ([contemporary], half).
Proof.
  induction l as [|x l IH]; intros sf0 sf m Hrun Hg Hm.
  - injection Hrun as <-. destruct Hm as [Hm|Hm]; [by apply elem_of_nil in Hm|done].
  - apply sum_freqs_loop_cons in Hrun as (evs' & entry & Hg' & Hrun & Hentry).
    apply (IH _ _ _ Hrun Hg).
    destruct (decide (m = x)) as [->|Hne].
    + right. rewrite lookup_insert_eq. rewrite Hg in Hg'. injection Hg' as <-.
      by destruct Hentry as [[_ ->]|[? _]].
    + rewrite lookup_insert_ne by done.
      destruct Hm as [[->|Hm]%elem_of_cons|Hm]; [done|by left|by right].
Qed.

Lemma best_events_of_incl evs sf es cands M e :
  candidate_totals evs sf es = Ok cands → e ∈ best_events_of cands M → e ∈ evs.
Proof.
  intros Hc He. apply candidate_totals_spec in Hc.
  unfold best_events_of in He.
  apply list_elem_of_fmap in He as (x & -> & Hx).
  apply list_elem_of_filter in Hx as [_ Hx].
  induction Hc as [|e0 x0 evs0 cands0 [Hfst _] _ IH]; [by apply elem_of_nil in Hx|].
  apply elem_of_cons in Hx as [->|Hx]; [rewrite Hfst; by left|right; by apply IH].
Qed.

(** Every entry of [sum_freqs] selects events of the same mapping node of
    the reconciliation graph. *)
Lemma sum_freqs_loop_sub g es l : ∀ (sf0 sf : sum_freqs_t),
  (∀ m p, sf0 !! m = Some p → ∃ evs, g !! m = Some evs ∧ ∀ e, e ∈ p.1 → e ∈ evs) →
  sum_freqs_loop g es l sf0 = Ok sf →
  ∀ m p, sf !! m = Some p → ∃ evs, g !! m = Some evs ∧ ∀ e, e ∈ p.1 → e ∈ evs.
Proof.
  induction l as [|x l IH]; intros sf0 sf Hsub Hrun.
  - by injection Hrun as <-.
  - apply sum_freqs_loop_cons in Hrun as (evs & entry & Hg & Hrun & Hentry).
    refine (IH _ _ _ Hrun). clear IH Hrun.
    intros m p. destruct (decide (m = x)) as [->|Hne].
    + rewrite lookup_insert_eq. intros [= <-]. exists evs. split; [done|].
      destruct Hentry as [[-> ->]|(_ & cands & best & Hc & _ & ->)]; [done|].
      simpl. intros e. by eapply best_events_of_incl.
    + rewrite lookup_insert_ne by done. apply Hsub.
Qed.

Lemma filter_eqb_cons {A} (x : A * float) (M : float) (l : list (A * float)) :
  (filter (fun y : A * float => (y.2 =? M)%float = true) (x :: l)).*1 =
  if (x.2 =? M)%float
  then x.1 :: (filter (fun y : A * float => (y.2 =? M)%float = true) l).*1
  else (filter (fun y : A * float => (y.2 =? M)%float = true) l).*1.
Proof.
  rewrite filter_cons. destruct (x.2 =? M)%float eqn:E.
  - by rewrite decide_True by done.
  - by rewrite decide_False by done.
Qed.

Lemma best_roots_loop_some combos : ∀ b acc,
  not_nan b → Forall (fun rc : mapping_node * float => not_nan rc.2) combos →
  ∃ M,
    (best_roots_loop combos (Some b) acc).1 = Some M ∧
    (b <=? M)%float = true ∧
    (∀ rc, rc ∈ combos → (rc.2 <=? M)%float = true) ∧
    (M = b ∨ ∃ rc, rc ∈ combos ∧ rc.2 = M) ∧
    (best_roots_loop combos (Some b) acc).2 =
      (if (b =? M)%float then acc else []) ++
      (filter (fun rc : mapping_node * float => (rc.2 =? M)%float = true) combos).*1.
Proof.
  induction combos as [|rc rest IH]; intros b acc Hb Hall; simpl.
  - exists b. split; [done|]. split; [by apply float_leb_refl|].
    split; [intros rc Hrc; by apply elem_of_nil in Hrc|]. split; [by left|].
    rewrite Hb. by rewrite app_nil_r.
  - apply Forall_cons in Hall as [Hrc Hall].
    destruct (rc.2 =? b)%float eqn:E1.
    + destruct (IH b (acc ++ [rc.1]) Hb Hall) as (M & H1 & HbM & Hle & Hex & Hr).
      exists M. split; [done|]. split; [done|]. split; [|split].
      * intros x [->|Hx]%elem_of_cons; [|by apply Hle].
        rewrite float_eqb_leb in E1. apply andb_prop in E1 as [E1 _].
        by eapply float_leb_trans.
      * destruct Hex as [->|(x & Hx & <-)]; [by left|right].
        exists x. split; [by right|done].
      * rewrite Hr, filter_eqb_cons, (float_eqb_congr _ _ M E1).
        destruct (b =? M)%float; simpl; [|done].
        by rewrite <- app_assoc.
    + destruct (b <? rc.2)%float eqn:E2.
      * destruct (IH rc.2 [rc.1] Hrc Hall) as (M & H1 & HrM & Hle & Hex & Hr).
        assert ((b =? M)%float = false) as HbM.
        { destruct (b =? M)%float eqn:E; [|done].
          rewrite float_eqb_leb in E. apply andb_prop in E as [_ E].
          pose proof (float_leb_trans _ _ _ HrM E) as Hrb.
          rewrite (float_ltb_leb b rc.2 Hb Hrc), Hrb in E2. discriminate E2. }
        exists M. split; [done|].
        split; [eapply float_leb_trans; [by apply float_ltb_weak|done]|].
        split; [|split].
        -- intros x [->|Hx]%elem_of_cons; [done|by apply Hle].
        -- right. destruct Hex as [->|(x & Hx & <-)].
           ++ exists rc. split; [by left|done].
           ++ exists x. split; [by right|done].
        -- rewrite Hr, filter_eqb_cons, HbM.
           by destruct (rc.2 =? M)%float.
      * destruct (IH b acc Hb Hall) as (M & H1 & HbM & Hle & Hex & Hr).
        pose proof (float_not_ltb b rc.2 Hb Hrc E2) as Hrb.
        assert ((rc.2 =? M)%float = false) as HrM.
        { destruct (rc.2 =? M)%float eqn:E; [|done].
          rewrite float_eqb_leb in E. apply andb_prop in E as [_ E].
          pose proof (float_leb_trans _ _ _ HbM E) as Hbr.
          rewrite float_eqb_leb, Hrb, Hbr in E1. discriminate E1. }
        exists M. split; [done|]. split; [done|]. split; [|split].
        -- intros x [->|Hx]%elem_of_cons; [by eapply float_leb_trans|by apply Hle].
        -- destruct Hex as [->|(x & Hx & <-)]; [by left|right].
           exists x. split; [by right|done].
        -- by rewrite Hr, filter_eqb_cons, HrM.
Qed.

Lemma best_roots_loop_spec combos :
  combos ≠ [] → Forall (fun rc : mapping_node * float => not_nan rc.2) combos →
  ∃ M,
    (best_roots_loop combos None []).1 = Some M ∧
    (∃ rc, rc ∈ combos ∧ rc.2 = M) ∧
    (∀ rc, rc ∈ combos → (rc.2 <=? M)%float = true) ∧
    (best_roots_loop combos None []).2 =
      (filter (fun rc : mapping_node * float => (rc.2 =? M)%float = true) combos).*1.
Proof.
  destruct combos as [|rc rest]; [done|]. intros _ [Hrc Hall]%Forall_cons. simpl.
  destruct (best_roots_loop_some rest rc.2 [rc.1] Hrc Hall)
    as (M & H1 & Hb & Hle & Hex & Hr).
  exists M. split; [done|]. split; [|split].
  - destruct Hex as [->|(x & Hx & <-)].
    + exists rc. split; [by left|done].
    + exists x. split; [by right|done].
  - intros x [->|Hx]%elem_of_cons; [done|by apply Hle].
  - rewrite Hr, filter_eqb_cons. by destruct (rc.2 =? M)%float.
Qed.

Lemma possible_root_combos_spec (roots : list mapping_node) (sf : sum_freqs_t) combos :
  possible_root_combos roots sf = Ok combos →
  Forall2 (fun r rc => rc.1 = r ∧ ∃ p, sf !! r = Some p ∧ rc.2 = p.2) roots combos.
Proof.
  revert combos. induction roots as [|r roots IH]; simpl; intros combos.
  - intros [= <-]. constructor.
  - unfold getitem. destruct (sf !! r) as [p|] eqn:E; [simpl|done].
    destruct (possible_root_combos roots sf) as [cs|]; [simpl|done].
    intros [= <-]. constructor; [|by apply IH]. split; [done|]. eauto.
Qed.

Lemma symmetric_total_det (sf : sum_freqs_t) (es : scored_t) e t t' :
  symmetric_total sf es e t → symmetric_total sf es e t' → t = t'.
Proof.
  intros H H'. apply candidate_total_formula in H, H'. congruence.
Qed.

Lemma sum_freqs_loop_nodes g es post sf :
  NoDup post → sum_freqs_loop g es post ∅ = Ok sf →
  ∀ m evs, m ∈ post → g !! m = Some evs → evs ≠ [contemporary] →
    ∃ cands max_sum,
      Forall2 (fun e x => x.1 = e ∧ symmetric_total sf es e x.2) evs cands ∧
      (∃ x, x ∈ cands ∧ x.2 = max_sum) ∧
      (Forall (fun x : event * float => not_nan x.2) cands →
       ∀ x, x ∈ cands → (x.2 <=? max_sum)%float = true) ∧
      sf !! m =
        Some ((filter (fun x : event * float => (x.2 =? max_sum)%float = true) cands).*1,
              max_sum).
Proof.
  intros Hnd Hrun m evs Hm Hg Hne.
  destruct (sum_freqs_loop_selected g es post ∅ sf Hnd
              ltac:(intros; apply lookup_empty) Hrun m evs Hm Hg Hne)
    as (cands & best & Hc & Hb & Hsf).
  apply py_max_spec in Hb as [Hin Hmax].
  exists cands, best.2. split; [by apply candidate_totals_spec|].
  split; [by exists best|]. by split.
Qed.

Lemma sum_freqs_loop_tie g es post sf m e1 e2 t1 t2 :
  NoDup post → sum_freqs_loop g es post ∅ = Ok sf →
  m ∈ post → g !! m = Some [e1; e2] →
  symmetric_total sf es e1 t1 → symmetric_total sf es e2 t2 →
  (t1 =? t2)%float = true →
  ∃ max_sum, sf !! m = Some ([e1; e2], max_sum).
Proof.
  intros Hnd Hrun Hm Hg H1 H2 Heq.
  destruct (sum_freqs_loop_nodes g es post sf Hnd Hrun m [e1; e2] Hm Hg)
    as (cands & M & HF & (x & Hx & HxM) & _ & Hsf); [by intros [=]|].
  exists M. rewrite Hsf. f_equal. f_equal.
  apply Forall2_cons_inv_l in HF as (x1 & cands1 & [Hf1 Ht1] & HF & ->).
  apply Forall2_cons_inv_l in HF as (x2 & cands2 & [Hf2 Ht2] & HF & ->).
  apply Forall2_nil_inv_l in HF as ->.
  pose proof (symmetric_total_det _ _ _ _ _ Ht1 H1) as E1.
  pose proof (symmetric_total_det _ _ _ _ _ Ht2 H2) as E2.
  destruct (float_eqb_not_nan _ _ Heq) as [Hn1 Hn2].
  assert ((x1.2 =? M)%float = true ∧ (x2.2 =? M)%float = true) as [Hq1 Hq2].
  { rewrite E1, E2. apply elem_of_cons in Hx as [->|Hx].
    - rewrite <- HxM, E1. split; [exact Hn1|by rewrite float_eqb_sym].
    - apply list_elem_of_singleton in Hx as ->.
      rewrite <- HxM, E2. split; [done|exact Hn2]. }
  rewrite !filter_eqb_cons, Hq1, Hq2. simpl. by rewrite Hf1, Hf2.
Qed.


(** C10: a mapping node whose event list is the single Contemporary event
    gets the entry ([that event], 0.5) whatever the event scores are: any
    two completed runs of the first loop of [compute_median], on any two
    score maps, agree on the entries of such nodes. *)
Theorem contemporary_entry_ignores_scores g es1 es2 post sf1 sf2 m :
  sum_freqs_loop g es1 post ∅ = Ok sf1 →
  sum_freqs_loop g es2 post ∅ = Ok sf2 →
  m ∈ post → g !! m = Some [contemporary] →
  sf1 !! m = Some ([contemporary], half) ∧
  sf2 !! m = Some ([contemporary], half) ∧
  sf1 !! m = sf2 !! m.
Proof.
  intros H1 H2 Hm Hg.
  pose proof (sum_freqs_loop_contemporary g es1 post ∅ sf1 m H1 Hg (or_introl Hm)) as E1.
  pose proof (sum_freqs_loop_contemporary g es2 post ∅ sf2 m H2 Hg (or_introl Hm)) as E2.
  split; [done|]. split; [done|]. by rewrite E1, E2.
Qed.

Lemma build_nodes_sub (rd : recon_graph)
    (rec : list mapping_node → recon_graph → result recon_graph) :
  (∀ l (g0 res : recon_graph), rec l g0 = Ok res →
     (∀ m evs, g0 !! m = Some evs → rd !! m = Some evs) →
     ∀ m evs, res !! m = Some evs → rd !! m = Some evs) →
  ∀ l (g0 res : recon_graph), build_nodes rec l rd g0 = Ok res →
    (∀ m evs, g0 !! m = Some evs → rd !! m = Some evs) →
    ∀ m evs, res !! m = Some evs → rd !! m = Some evs.
Proof.
  intros Hrec. induction l as [|x l IH]; simpl; intros g0 res Hrun Hsub.
  - by injection Hrun as <-.
  - destruct (decide (x = sentinel)); [by eapply IH|].
    unfold getitem in Hrun. destruct (rd !! x) as [evs|] eqn:Hx; [simpl in Hrun|done].
    destruct (rec _ _) as [g1|] eqn:Hg1; [simpl in Hrun|done].
    eapply IH; [exact Hrun|]. eapply Hrec; [exact Hg1|].
    intros m evs'. destruct (decide (m = x)) as [->|Hne].
    + rewrite lookup_insert_eq. congruence.
    + rewrite lookup_insert_ne by done. apply Hsub.
Qed.

Lemma build_dtl_recon_graph_sub (rd : recon_graph) fuel :
  ∀ l (g0 res : recon_graph), build_dtl_recon_graph fuel l rd g0 = Ok res →
    (∀ m evs, g0 !! m = Some evs → rd !! m = Some evs) →
    ∀ m evs, res !! m = Some evs → rd !! m = Some evs.
Proof.
  induction fuel as [|fuel IH]; simpl; intros l g0 res Hrun; [done|].
  revert Hrun. apply build_nodes_sub. intros l' g1 res'. apply IH.
Qed.

(** Whenever [compute_median] reaches its assertion, the assertion holds. *)
Lemma median_assertion_holds fuel g es post roots sf combos med :
  sum_freqs_loop g es post ∅ = Ok sf →
  possible_root_combos roots sf = Ok combos →
  build_dtl_recon_graph fuel (best_roots_loop combos None []).2 (fst <$> sf) ∅ = Ok med →
  ∀ k evs, med !! k = Some evs →
    ∃ evs', g !! k = Some evs' ∧ ∀ e, e ∈ evs → e ∈ evs'.
Proof.
  intros Hsf Hc Hmed k evs Hk.
  eapply build_dtl_recon_graph_sub in Hk; [|exact Hmed|intros ??; by rewrite lookup_empty].
  rewrite lookup_fmap in Hk.
  destruct (sf !! k) as [p|] eqn:Hp; [|done]. injection Hk as <-.
  eapply sum_freqs_loop_sub; [|exact Hsf|exact Hp].
  intros ??. by rewrite lookup_empty.
Qed.

Lemma compute_median_inv fuel g es post roots med n br :
  compute_median fuel g es post roots = Ok (med, n, br) →
  ∃ sf combos,
    sum_freqs_loop g es post ∅ = Ok sf ∧
    possible_root_combos roots sf = Ok combos ∧
    br = (best_roots_loop combos None []).2 ∧
    build_dtl_recon_graph fuel br (fst <$> sf) ∅ = Ok med ∧
    check_subgraph g med = true ∧
    count_mprs_wrapper fuel br med = Ok n.
Proof.
  unfold compute_median.
  destruct (sum_freqs_loop g es post ∅) as [sf|] eqn:Hsf; [simpl|done].
  destruct (possible_root_combos roots sf) as [combos|] eqn:Hc; [simpl|done].
  destruct (build_dtl_recon_graph _ _ _ _) as [med'|] eqn:Hb; [simpl|done].
  destruct (check_subgraph g med') eqn:Hch; [|done].
  destruct (count_mprs_wrapper _ _ _) as [n'|] eqn:Hn; [simpl|done].
  intros [= <- <- <-]. exists sf, combos. repeat (split; [done|]). done.
Qed.

(** C4: the median reconciliation graph built by [compute_median] is a
    subgraph of the original graph: each of its mapping nodes is a key of
    the original graph and each event listed under it is listed under the
    same key there.  The check holds whenever the assertion is reached, so
    the assertion never fails, and it holds of every returned graph. *)
Theorem compute_median_subgraph fuel g es post roots :
  (∀ sf combos med,
     sum_freqs_loop g es post ∅ = Ok sf →
     possible_root_combos roots sf = Ok combos →
     build_dtl_recon_graph fuel (best_roots_loop combos None []).2 (fst <$> sf) ∅ = Ok med →
     check_subgraph g med = true) ∧
  (∀ med n br,
     compute_median fuel g es post roots = Ok (med, n, br) →
     check_subgraph g med = true ∧
     ∀ k evs, med !! k = Some evs →
       ∃ evs', g !! k = Some evs' ∧ ∀ e, e ∈ evs → e ∈ evs').
Proof.
  split.
  - intros sf combos med Hsf Hc Hmed. apply check_subgraph_spec.
    by eapply median_assertion_holds.
  - intros med n br Hrun.
    apply compute_median_inv in Hrun as (sf & combos & Hsf & Hc & -> & Hmed & Hch & _).
    split; [done|]. by eapply median_assertion_holds.
Qed.

End Median.


Lemma contemporary_entry_ignores_scores_witness :
  tied_sum_freqs !! nd "r" "A" = Some ([contemporary], half) ∧
  tied_sum_freqs !! nd "r" "A" = Some ([contemporary], half) ∧
  tied_sum_freqs !! nd "r" "A" = tied_sum_freqs !! nd "r" "A".
Proof.
  apply (contemporary_entry_ignores_scores tied_dict tied_scores tied_scores'
           tied_postorder tied_sum_freqs tied_sum_freqs (nd "r" "A")).
  - compute_done.
  - compute_done.
  - compute_done.
  - compute_done.
Defined.

Lemma compute_median_subgraph_witness :
  check_subgraph tied_dict tied_dict = true ∧
  ∀ k evs, tied_dict !! k = Some evs →
    ∃ evs', tied_dict !! k = Some evs' ∧ ∀ e, e ∈ evs → e ∈ evs'.
Proof.
  apply (proj2 (compute_median_subgraph 3 tied_dict tied_scores tied_postorder
                  [nd "r" "R"]) tied_dict 2%Z [nd "r" "R"]).
  compute_done.
Defined.

(** The tied example end to end: both events of the tied node are in the
    median graph, which encodes two median reconciliations. *)
Example compute_median_tied :
  compute_median 3 tied_dict tied_scores tied_postorder [nd "r" "R"]
  = Ok (tied_dict, 2%Z, [nd "r" "R"]).
Proof. compute_done. Qed.

(** Binary64 rounding decides ties: the frequencies 0.1 and the float just
    below it give the same candidate total after the addition of the
    child's running sum 0.5 and the subtraction of 0.5, and both events
    are kept. *)
Example compute_median_rounding_tie :
  (0x1.999999999999ap-4 =? 0x1.9999999999999p-4)%float = false ∧
  ∃ sf max_sum,
    sum_freqs_loop tied_dict close_scores tied_postorder ∅ = Ok sf ∧
    sf !! nd "r" "R" =
      Some ([("L"%string, nd "r" "A", sentinel); ("L"%string, nd "r" "B", sentinel)],
            max_sum).
Proof.
  split; [reflexivity|].
  exists (<[nd "r" "R" := ([("L"%string, nd "r" "A", sentinel);
                            ("L"%string, nd "r" "B", sentinel)],
                           (0.5 + 0x1.999999999999ap-4 - 0.5)%float)]>
            (<[nd "r" "A" := ([contemporary], half)]>
            (<[nd "r" "B" := ([contemporary], half)]> ∅))).
  exists (0.5 + 0x1.999999999999ap-4 - 0.5)%float. split; compute_done.
Qed.

(** ** The MPR counter *)

Section Counter.

Lemma sum_products_cons cnt e events :
  sum_products cnt (e :: events) =
  (n1 ← cnt (child1 e); n2 ← cnt (child2 e); a ← sum_products cnt events;
   Some (n1 * n2 + a)%Z).
Proof. reflexivity. Qed.

Lemma sum_products_inv cnt e events s :
  sum_products cnt (e :: events) = Some s →
  ∃ n1 n2 a, cnt (child1 e) = Some n1 ∧ cnt (child2 e) = Some n2 ∧
             sum_products cnt events = Some a ∧ s = (n1 * n2 + a)%Z.
Proof.
  rewrite sum_products_cons.
  destruct (cnt (child1 e)) as [n1|]; [simpl|done].
  destruct (cnt (child2 e)) as [n2|]; [simpl|done].
  destruct (sum_products cnt events) as [a|]; [simpl|done].
  intros [= <-]. by exists n1, n2, a.
Qed.

Lemma sum_products_intro cnt e events n1 n2 a :
  cnt (child1 e) = Some n1 → cnt (child2 e) = Some n2 →
  sum_products cnt events = Some a →
  sum_products cnt (e :: events) = Some (n1 * n2 + a)%Z.
Proof. intros H1 H2 Ha. by rewrite sum_products_cons, H1, H2, Ha. Qed.

Lemma sum_products_mono (cnt cnt' : mapping_node → option Z) events s :
  (∀ c n, cnt c = Some n → cnt' c = Some n) →
  sum_products cnt events = Some s → sum_products cnt' events = Some s.
Proof.
  intros Hc. revert s. induction events as [|e events IH]; intros s; [done|].
  intros (n1 & n2 & a & H1 & H2 & Ha & ->)%sum_products_inv.
  apply sum_products_intro; auto.
Qed.

Lemma mpr_count_sentinel f g : mpr_count f g sentinel = Some 1%Z.
Proof. by destruct f. Qed.

Lemma mpr_count_O g m : m ≠ sentinel → mpr_count 0 g m = None.
Proof. intros Hne. simpl. by rewrite decide_False. Qed.

Lemma mpr_count_S f g m :
  m ≠ sentinel →
  mpr_count (S f) g m = (events ← g !! m; sum_products (mpr_count f g) events).
Proof. intros Hne. simpl. by rewrite decide_False. Qed.

Lemma mpr_count_mono g : ∀ f f' m n,
  f ≤ f' → mpr_count f g m = Some n → mpr_count f' g m = Some n.
Proof.
  induction f as [|f IH]; intros f' m n Hle Hm;
    destruct (decide (m = sentinel)) as [->|Hne];
    try (rewrite mpr_count_sentinel in *; done).
  - by rewrite mpr_count_O in Hm.
  - destruct f' as [|f']; [lia|]. rewrite mpr_count_S in * by done.
    destruct (g !! m) as [evs|]; [simpl in *|done].
    eapply sum_products_mono; [|exact Hm]. intros c k. apply IH. lia.
Qed.

Lemma mpr_count_det g f f' m n n' :
  mpr_count f g m = Some n → mpr_count f' g m = Some n' → n = n'.
Proof.
  intros H H'.
  apply (mpr_count_mono g f (f `max` f')) in H; [|lia].
  apply (mpr_count_mono g f' (f `max` f')) in H'; [|lia].
  congruence.
Qed.

Lemma event_count_intro g f1 f2 e n1 n2 :
  mpr_count f1 g (child1 e) = Some n1 → mpr_count f2 g (child2 e) = Some n2 →
  event_count (f1 `max` f2) g e = Some (n1 * n2)%Z.
Proof.
  intros H1 H2. unfold event_count.
  assert (mpr_count (f1 `max` f2) g (child1 e) = Some n1) as ->
    by (eapply mpr_count_mono; [|exact H1]; lia).
  assert (mpr_count (f1 `max` f2) g (child2 e) = Some n2) as ->
    by (eapply mpr_count_mono; [|exact H2]; lia).
  done.
Qed.

Lemma sum_products_nonneg cnt events s :
  (∀ c n, cnt c = Some n → (0 ≤ n)%Z) →
  sum_products cnt events = Some s → (0 ≤ s)%Z.
Proof.
  intros Hc. revert s. induction events as [|e events IH]; intros s.
  - intros [= <-]. lia.
  - intros (n1 & n2 & a & H1 & H2 & Ha & ->)%sum_products_inv.
    apply Hc in H1, H2. apply IH in Ha. nia.
Qed.

Lemma mpr_count_nonneg g : ∀ f m n, mpr_count f g m = Some n → (0 ≤ n)%Z.
Proof.
  induction f as [|f IH]; intros m n Hm;
    destruct (decide (m = sentinel)) as [->|Hne];
    try (rewrite mpr_count_sentinel in Hm; injection Hm as <-; lia).
  - by rewrite mpr_count_O in Hm.
  - rewrite mpr_count_S in Hm by done.
    destruct (g !! m) as [evs|]; [simpl in Hm|done].
    eapply sum_products_nonneg; [|exact Hm]. apply IH.
Qed.

Lemma sum_products_pos cnt events s :
  (∀ c n, cnt c = Some n → (0 < n)%Z) →
  sum_products cnt events = Some s → (0 ≤ s)%Z ∧ (events ≠ [] → (0 < s)%Z).
Proof.
  intros Hc. revert s. induction events as [|e events IH]; intros s.
  - intros [= <-]. split; [lia|done].
  - intros (n1 & n2 & a & H1 & H2 & Ha & ->)%sum_products_inv.
    apply Hc in H1, H2. apply IH in Ha as [Ha _]. split; [nia|]. intros _. nia.
Qed.

Lemma mpr_count_pos g :
  nonempty_events g → ∀ f m n, mpr_count f g m = Some n → (0 < n)%Z.
Proof.
  intros Hne. induction f as [|f IH]; intros m n Hm;
    destruct (decide (m = sentinel)) as [->|Hns];
    try (rewrite mpr_count_sentinel in Hm; injection Hm as <-; lia).
  - by rewrite mpr_count_O in Hm.
  - rewrite mpr_count_S in Hm by done.
    destruct (g !! m) as [evs|] eqn:Hg; [simpl in Hm|done].
    eapply sum_products_pos; [|exact Hm|by eapply Hne]. apply IH.
Qed.

Lemma event_count_pos g f e n :
  nonempty_events g → event_count f g e = Some n → (0 < n)%Z.
Proof.
  intros Hne. unfold event_count.
  destruct (mpr_count f g (child1 e)) as [n1|] eqn:E1; [simpl|done].
  destruct (mpr_count f g (child2 e)) as [n2|] eqn:E2; [simpl|done].
  intros [= <-]. apply (mpr_count_pos g Hne) in E1, E2. nia.
Qed.

Lemma memo_ext_refl counts : memo_ext counts counts.
Proof. by split. Qed.

Lemma memo_ext_trans c1 c2 c3 : memo_ext c1 c2 → memo_ext c2 c3 → memo_ext c1 c3.
Proof. intros [H1 H2] [H3 H4]. split; eauto. Qed.

Lemma memo_ext_insert_inr (counts : counts_t) e v :
  memo_ext counts (<[inr e := v]> counts).
Proof.
  split.
  - intros k w Hk. by rewrite lookup_insert_ne.
  - intros k [w Hk]. destruct (decide (k = inr e)) as [->|Hne].
    + rewrite lookup_insert_eq. eauto.
    + rewrite lookup_insert_ne by done. eauto.
Qed.

Lemma memo_closed_ext g counts counts' m evs e :
  memo_closed g counts → memo_ext counts counts' →
  is_Some (counts !! inl m) → g !! m = Some evs → e ∈ evs →
  is_Some (counts' !! inr e) ∧
  ∀ c, c ∈ [child1 e; child2 e] → c = sentinel ∨ is_Some (counts' !! inl c).
Proof.
  intros Hcl [_ Hext] Hm Hg He.
  destruct (Hcl m evs e Hm Hg He) as [H1 H2]. split; [by apply Hext|].
  intros c Hc. destruct (H2 c Hc) as [?|?]; [by left|right; by apply Hext].
Qed.

Lemma memo_inv_insert_inr g counts e v f :
  memo_inv g counts → event_count f g e = Some v →
  memo_inv g (<[inr e := v]> counts).
Proof.
  intros [[Hok1 Hok2] Hcl] Hv. split; [split|].
  - intros m n. rewrite lookup_insert_ne by done. apply Hok1.
  - intros e' n. destruct (decide (e' = e)) as [->|Hne].
    + rewrite lookup_insert_eq. intros [= <-]. eauto.
    + rewrite lookup_insert_ne by congruence. apply Hok2.
  - intros m evs e' Hm Hg He'. rewrite lookup_insert_ne in Hm by done.
    eapply memo_closed_ext; eauto using memo_ext_insert_inr.
Qed.

Lemma count_events_inv g rec :
  (∀ m counts n counts', memo_inv g counts → rec m counts = Ok (n, counts') →
     count_post g m counts n counts') →
  ∀ events count counts n counts',
    memo_inv g counts → count_events rec events count counts = Ok (n, counts') →
    memo_inv g counts' ∧ memo_ext counts counts' ∧
    (∃ f s, sum_products (mpr_count f g) events = Some s ∧ n = (count + s)%Z) ∧
    (∀ e, e ∈ events →
       is_Some (counts' !! inr e) ∧
       ∀ c, c ∈ [child1 e; child2 e] → c = sentinel ∨ is_Some (counts' !! inl c)).
Proof.
  intros Hrec. induction events as [|e events IH]; intros count counts n counts' Hinv Hrun.
  - injection Hrun as <- <-. split; [done|]. split; [apply memo_ext_refl|]. split.
    + exists 0, 0%Z. split; [done|lia].
    + intros e He. by apply elem_of_nil in He.
  - simpl in Hrun.
    destruct (rec (child1 e) counts) as [[c1 counts1]|] eqn:E1; [simpl in Hrun|done].
    destruct (rec (child2 e) counts1) as [[c2 counts2]|] eqn:E2; [simpl in Hrun|done].
    destruct (Hrec _ _ _ _ Hinv E1) as (Hinv1 & [f1 Hf1] & Hext1 & Hin1).
    destruct (Hrec _ _ _ _ Hinv1 E2) as (Hinv2 & [f2 Hf2] & Hext2 & Hin2).
    pose proof (event_count_intro g f1 f2 e c1 c2 Hf1 Hf2) as Hev.
    pose proof (memo_inv_insert_inr g counts2 e _ _ Hinv2 Hev) as Hinv3.
    destruct (IH _ _ _ _ Hinv3 Hrun) as (Hinv' & Hext' & (f & s & Hs & ->) & Hin').
    assert (memo_ext counts2 counts') as Hext2'.
    { eapply memo_ext_trans; [apply memo_ext_insert_inr|exact Hext']. }
    split; [done|]. split.
    { eapply memo_ext_trans; [exact Hext1|].
      eapply memo_ext_trans; [exact Hext2|exact Hext2']. }
    split.
    + exists (f `max` (f1 `max` f2)), (c1 * c2 + s)%Z. split; [|lia].
      apply sum_products_intro.
      * eapply mpr_count_mono; [|exact Hf1]. lia.
      * eapply mpr_count_mono; [|exact Hf2]. lia.
      * eapply sum_products_mono; [|exact Hs].
        intros c k. apply mpr_count_mono. lia.
    + intros e' [->|He']%elem_of_cons; [|by apply Hin'].
      split.
      * apply Hext'. rewrite lookup_insert_eq. eauto.
      * intros c Hc. destruct (decide (c = sentinel)) as [|Hns]; [by left|right].
        apply elem_of_cons in Hc as [->|Hc].
        -- apply Hext2'. apply Hext2. rewrite Hin1 by done. eauto.
        -- apply list_elem_of_singleton in Hc as ->.
           apply Hext2'. rewrite Hin2 by done. eauto.
Qed.

Lemma count_mprs_step_inv g rec :
  (∀ m counts n counts', memo_inv g counts → rec m counts = Ok (n, counts') →
     count_post g m counts n counts') →
  ∀ m counts n counts', memo_inv g counts →
    counts !! inl m = None → m ≠ sentinel →
    (events ← getitem g m;
     '(count, counts) ← count_events rec events 0%Z counts;
     Ok (count, <[inl m := count]> counts)) = Ok (n, counts') →
    count_post g m counts n counts'.
Proof.
  intros Hrec m counts n counts' Hinv Hmiss Hns Hrun.
  unfold getitem in Hrun. destruct (g !! m) as [events|] eqn:Hg; [simpl in Hrun|done].
  destruct (count_events rec events 0%Z counts) as [[count counts1]|] eqn:Ec;
    [simpl in Hrun|done].
  injection Hrun as <- <-.
  destruct (count_events_inv g rec Hrec _ _ _ _ _ Hinv Ec)
    as ([[Hok1 Hok2] Hcl] & [Hext1 Hext2] & (f & s & Hs & ->) & Hin).
  assert (mpr_count (S f) g m = Some (0 + s)%Z) as Hm.
  { rewrite mpr_count_S by done. rewrite Hg. simpl. by rewrite Z.add_0_l. }
  assert (∀ k, is_Some (counts1 !! k) →
               is_Some (<[inl m := (0 + s)%Z]> counts1 !! k)) as Hmono.
  { intros k Hk. apply lookup_insert_is_Some'. by right. }
  split; [split; [split|]|split; [eauto|split; [split|]]].
  - intros k v. destruct (decide (k = m)) as [->|Hne].
    + rewrite lookup_insert_eq. intros [= <-]. eauto.
    + rewrite lookup_insert_ne by congruence. apply Hok1.
  - intros e v. rewrite lookup_insert_ne by done. apply Hok2.
  - intros k evs e Hk Hgk He.
    assert (is_Some (counts1 !! inr e) ∧
            ∀ c, c ∈ [child1 e; child2 e] → c = sentinel ∨ is_Some (counts1 !! inl c))
      as [H1 H2].
    { destruct (decide (k = m)) as [->|Hne].
      - rewrite Hg in Hgk. injection Hgk as <-. by apply Hin.
      - rewrite lookup_insert_ne in Hk by congruence. by eapply Hcl. }
    split; [by apply Hmono|].
    intros c Hc. destruct (H2 c Hc) as [?|?]; [by left|right; by apply Hmono].
  - intros k v Hk. destruct (decide (k = m)) as [->|Hne]; [congruence|].
    rewrite lookup_insert_ne by congruence. by apply Hext1.
  - intros k Hk. by apply Hmono, Hext2.
  - intros _. by rewrite lookup_insert_eq.
Qed.

Lemma count_mprs_inv g : ∀ fuel m counts n counts',
  memo_inv g counts → count_mprs fuel m g counts = Ok (n, counts') →
  count_post g m counts n counts'.
Proof.
  assert (∀ m counts v, memo_inv g counts → counts !! inl m = Some v →
            count_post g m counts v counts) as Hhit.
  { intros m counts v Hinv Hv. split; [done|]. split; [by apply Hinv in Hv|].
    split; [apply memo_ext_refl|done]. }
  assert (∀ counts, memo_inv g counts → count_post g sentinel counts 1 counts) as Hsent.
  { intros counts Hinv. split; [done|]. split; [exists 0; apply mpr_count_sentinel|].
    split; [apply memo_ext_refl|done]. }
  induction fuel as [|fuel IH]; intros m counts n counts' Hinv Hrun; simpl in Hrun.
  - destruct (counts !! inl m) as [v|] eqn:Hv.
    + injection Hrun as <- <-. by apply Hhit.
    + destruct (decide (m = sentinel)) as [->|]; [|done].
      injection Hrun as <- <-. by apply Hsent.
  - destruct (counts !! inl m) as [v|] eqn:Hv.
    + injection Hrun as <- <-. by apply Hhit.
    + destruct (decide (m = sentinel)) as [->|Hns].
      * injection Hrun as <- <-. by apply Hsent.
      * eapply (count_mprs_step_inv g (fun m c => count_mprs fuel m g c)); eauto.
Qed.

Lemma memo_inv_empty g : memo_inv g ∅.
Proof.
  split; [split|].
  - intros m n. by rewrite lookup_empty.
  - intros e n. by rewrite lookup_empty.
  - intros m evs e [? Hk]. by rewrite lookup_empty in Hk.
Qed.

Lemma count_events_total rec events :
  (∀ e c (counts : counts_t), e ∈ events → c ∈ [child1 e; child2 e] →
     ∃ n counts', rec c counts = Ok (n, counts')) →
  ∀ count counts, ∃ n counts', count_events rec events count counts = Ok (n, counts').
Proof.
  induction events as [|e events IH]; intros Hrec count counts; simpl; [eauto|].
  destruct (Hrec e (child1 e) counts) as (c1 & counts1 & ->); [by left|by left|]. simpl.
  destruct (Hrec e (child2 e) counts1) as (c2 & counts2 & ->);
    [by left|right; by left|]. simpl.
  apply IH. intros e' c counts' He'. apply Hrec. by right.
Qed.

Lemma count_mprs_total g depth :
  closed_dag g depth →
  ∀ fuel m counts,
    m = sentinel ∨ (is_Some (g !! m) ∧ depth m < fuel) →
    ∃ n counts', count_mprs fuel m g counts = Ok (n, counts').
Proof.
  intros Hdag. induction fuel as [|fuel IH]; intros m counts Hm; simpl;
    (destruct (counts !! inl m) as [v|]; [eauto|]);
    (destruct (decide (m = sentinel)) as [->|Hns]; [eauto|]);
    destruct Hm as [?|[[evs Hg] Hd]]; try done; [lia|].
  unfold getitem. rewrite Hg. simpl.
  destruct (count_events_total (fun m c => count_mprs fuel m g c) evs) with
    (count := 0%Z) (counts := counts) as (n & counts' & ->); [|simpl; eauto].
  intros e c counts0 He Hc. apply IH.
  destruct (Hdag m evs e c Hg He Hc) as [?|[? ?]]; [by left|right].
  split; [done|lia].
Qed.

Lemma mpr_count_total g depth :
  closed_dag g depth →
  ∀ fuel m, m = sentinel ∨ (is_Some (g !! m) ∧ depth m < fuel) →
    is_Some (mpr_count fuel g m).
Proof.
  intros Hdag. induction fuel as [|fuel IH]; intros m Hm;
    (destruct (decide (m = sentinel)) as [->|Hns];
       [rewrite mpr_count_sentinel; eauto|]);
    destruct Hm as [?|[[evs Hg] Hd]]; try done; [lia|].
  rewrite mpr_count_S by done. rewrite Hg. simpl.
  assert (∀ e c, e ∈ evs → c ∈ [child1 e; child2 e] →
                 is_Some (mpr_count fuel g c)) as Hch.
  { intros e c He Hc. apply IH.
    destruct (Hdag m evs e c Hg He Hc) as [?|[? ?]]; [by left|right].
    split; [done|lia]. }
  clear Hg. induction evs as [|e evs IHe]; [by eexists|].
  destruct (Hch e (child1 e)) as [n1 H1]; [by left|by left|].
  destruct (Hch e (child2 e)) as [n2 H2]; [by left|right; by left|].
  destruct IHe as [a Ha]; [intros e' c He'; apply Hch; by right|].
  eexists. by apply sum_products_intro.
Qed.

Lemma mpr_count_at g fuel f m n :
  mpr_count f g m = Some n → is_Some (mpr_count fuel g m) →
  mpr_count fuel g m = Some n.
Proof.
  intros Hf [n' Hn']. rewrite Hn'. f_equal. by eapply mpr_count_det.
Qed.

Lemma event_count_at g fuel f e p :
  event_count f g e = Some p →
  is_Some (mpr_count fuel g (child1 e)) → is_Some (mpr_count fuel g (child2 e)) →
  event_count fuel g e = Some p.
Proof.
  unfold event_count. intros Hp H1 H2.
  destruct (mpr_count f g (child1 e)) as [n1|] eqn:E1; [simpl in Hp|done].
  destruct (mpr_count f g (child2 e)) as [n2|] eqn:E2; [simpl in Hp|done].
  by rewrite (mpr_count_at g fuel f _ n1 E1 H1), (mpr_count_at g fuel f _ n2 E2 H2).
Qed.

Lemma sum_counts_cons cnt m ms :
  sum_counts cnt (m :: ms) = (n ← cnt m; a ← sum_counts cnt ms; Some (n + a)%Z).
Proof. reflexivity. Qed.

Lemma sum_counts_mono (cnt cnt' : mapping_node → option Z) ms s :
  (∀ m n, cnt m = Some n → cnt' m = Some n) →
  sum_counts cnt ms = Some s → sum_counts cnt' ms = Some s.
Proof.
  intros Hc. revert s. induction ms as [|y ms IH]; intros s; [done|].
  rewrite !sum_counts_cons.
  destruct (cnt y) as [ny|] eqn:Ey; [simpl|done].
  rewrite (Hc y ny Ey). simpl.
  destruct (sum_counts cnt ms) as [a|]; [simpl|done].
  by rewrite (IH a).
Qed.

(** The first loop of [generate_scores]. *)
Lemma count_roots_inv g gene_root fuel : ∀ l count counts total counts',
  memo_inv g counts →
  count_roots fuel l g gene_root count counts = Ok (total, counts') →
  memo_inv g counts' ∧ memo_ext counts counts' ∧
  (∃ f s, sum_counts (mpr_count f g) (filter (fun m => m.1 = gene_root) l) = Some s ∧
          total = (count + s)%Z) ∧
  (∀ m, m ∈ l → m.1 = gene_root → m ≠ sentinel → is_Some (counts' !! inl m)).
Proof.
  induction l as [|x l IH]; intros count counts total counts' Hinv Hrun; simpl in Hrun.
  - injection Hrun as <- <-. split; [done|]. split; [apply memo_ext_refl|]. split.
    + exists 0, 0%Z. split; [done|lia].
    + intros m Hm. by apply elem_of_nil in Hm.
  - rewrite filter_cons. destruct (decide (x.1 = gene_root)) as [Hx|Hx].
    + destruct (count_mprs fuel x g counts) as [[c counts1]|] eqn:Ec; [simpl in Hrun|done].
      destruct (count_mprs_inv g _ _ _ _ _ Hinv Ec) as (Hinv1 & [f1 Hf1] & Hext1 & Hin1).
      destruct (IH _ _ _ _ Hinv1 Hrun) as (Hinv' & Hext' & (f & s & Hs & ->) & Hin').
      split; [done|]. split; [by eapply memo_ext_trans|]. split.
      * exists (f `max` f1), (c + s)%Z. split; [|lia].
        rewrite sum_counts_cons.
        rewrite (mpr_count_mono g f1 (f `max` f1) x c) by (done || lia).
        rewrite (sum_counts_mono (mpr_count f g) (mpr_count (f `max` f1) g) _ s);
          [done| |done].
        intros y ny. apply mpr_count_mono. lia.
      * intros m [->|Hm]%elem_of_cons Hr Hns; [|by apply Hin'].
        destruct Hext' as [_ Hmono]. apply Hmono.
        exists c. by apply Hin1.
    + destruct (IH _ _ _ _ Hinv Hrun) as (Hinv' & Hext' & Hsum & Hin').
      split; [done|]. split; [done|]. split; [done|].
      intros m [->|Hm]%elem_of_cons Hr Hns; [done|by apply Hin'].
Qed.

Lemma count_roots_total g depth gene_root fuel :
  closed_dag g depth →
  ∀ l, (∀ m, m ∈ l → m.1 = gene_root →
          m = sentinel ∨ (is_Some (g !! m) ∧ depth m < fuel)) →
  ∀ count counts, ∃ total counts',
    count_roots fuel l g gene_root count counts = Ok (total, counts').
Proof.
  intros Hdag. induction l as [|x l IH]; intros Hl count counts; simpl; [eauto|].
  destruct (decide (x.1 = gene_root)) as [Hx|Hx].
  - destruct (count_mprs_total g depth Hdag fuel x counts) as (c & counts1 & ->).
    { apply Hl; [by left|done]. }
    simpl. apply IH. intros m Hm. apply Hl. by right.
  - apply IH. intros m Hm. apply Hl. by right.
Qed.

Lemma closed_dag_intro (g : recon_graph) depth :
  map_Forall (fun m evs =>
    Forall (fun e => Forall (fun c => c = sentinel ∨ (is_Some (g !! c) ∧ depth c < depth m))
                            [child1 e; child2 e]) evs) g →
  closed_dag g depth.
Proof.
  intros Hall m evs e c Hm He Hc.
  specialize (Hall m evs Hm). simpl in Hall.
  rewrite Forall_forall in Hall. specialize (Hall e He).
  rewrite Forall_forall in Hall. by apply Hall.
Qed.

(** A call of [count_mprs] on a key of a closed acyclic graph, with a memo
    that holds reference counts. *)
Lemma count_mprs_correct g depth fuel m evs counts :
  closed_dag g depth → memo_inv g counts →
  g !! m = Some evs → m ≠ sentinel → depth m < fuel →
  ∃ n counts',
    count_mprs fuel m g counts = Ok (n, counts') ∧
    memo_inv g counts' ∧
    mpr_count fuel g m = Some n ∧
    sum_products (mpr_count fuel g) evs = Some n ∧
    counts' !! inl m = Some n ∧
    ∀ e, e ∈ evs → ∃ p, counts' !! inr e = Some p ∧ event_count fuel g e = Some p.
Proof.
  intros Hdag Hinv Hg Hns Hd.
  destruct (count_mprs_total g depth Hdag fuel m counts) as (n & counts' & Hrun).
  { right. split; [eauto|done]. }
  destruct (count_mprs_inv g _ _ _ _ _ Hinv Hrun) as ([Hok Hcl] & [f Hf] & Hext & Hin).
  assert (∀ e c, e ∈ evs → c ∈ [child1 e; child2 e] →
                 is_Some (mpr_count fuel g c)) as Hch.
  { intros e c He Hc. apply (mpr_count_total g depth Hdag).
    destruct (Hdag m evs e c Hg He Hc) as [?|[? ?]]; [by left|right].
    split; [done|lia]. }
  assert (mpr_count fuel g m = Some n) as Hm.
  { eapply mpr_count_at; [exact Hf|].
    apply (mpr_count_total g depth Hdag). right. split; [eauto|done]. }
  exists n, counts'. split; [done|]. split; [done|]. split; [done|]. split; [|split].
  - destruct fuel as [|fuel]; [lia|].
    rewrite mpr_count_S, Hg in Hm by done. simpl in Hm.
    eapply sum_products_mono; [|exact Hm].
    intros c k. apply mpr_count_mono. lia.
  - by apply Hin.
  - intros e He.
    destruct (Hcl m evs e) as [[p Hp] _]; [rewrite Hin by done; eauto|done|done|].
    exists p. split; [done|].
    destruct Hok as [_ Hok2]. destruct (Hok2 e p Hp) as [f' Hf'].
    eapply event_count_at; [exact Hf'|apply (Hch e); [done|by left]|
                            apply (Hch e); [done|right; by left]].
Qed.

(** C2: [count_mprs] returns 1 for the sentinel; for a mapping node of a
    closed acyclic reconciliation graph it returns the sum, over the event
    nodes listed under it, of the product of the counts of the event's two
    children, and leaves that count and the count of each of those events
    in the memo; the total computed by the first loop of [generate_scores]
    is the sum of these counts over the listed mapping nodes whose gene
    component is the gene-tree root. *)
Theorem count_mprs_sum_of_products g depth fuel l gene_root :
  closed_dag g depth →
  (∀ m, m ∈ l → is_Some (g !! m) ∧ m ≠ sentinel ∧ depth m < fuel) →
  count_mprs fuel sentinel g ∅ = Ok (1%Z, ∅) ∧
  (∀ m evs, g !! m = Some evs → m ≠ sentinel → depth m < fuel →
     ∃ n counts',
       count_mprs fuel m g ∅ = Ok (n, counts') ∧
       mpr_count fuel g m = Some n ∧
       sum_products (mpr_count fuel g) evs = Some n ∧
       counts' !! inl m = Some n ∧
       ∀ e, e ∈ evs → ∃ p, counts' !! inr e = Some p ∧ event_count fuel g e = Some p) ∧
  (∃ total counts,
     count_roots fuel l g gene_root 0%Z ∅ = Ok (total, counts) ∧
     sum_counts (mpr_count fuel g) (filter (fun m => m.1 = gene_root) l) = Some total).
Proof.
  intros Hdag Hl. split; [by destruct fuel|]. split.
  - intros m evs Hg Hns Hd.
    destruct (count_mprs_correct g depth fuel m evs ∅ Hdag (memo_inv_empty g) Hg Hns Hd)
      as (n & counts' & H1 & _ & H2 & H3 & H4 & H5).
    by exists n, counts'.
  - destruct (count_roots_total g depth gene_root fuel Hdag l) with
      (count := 0%Z) (counts := (∅ : counts_t)) as (total & counts & Hrun).
    { intros m Hm _. right. destruct (Hl m Hm) as (? & ? & ?). by split. }
    exists total, counts. split; [done|].
    destruct (count_roots_inv g gene_root fuel _ _ _ _ _ (memo_inv_empty g) Hrun)
      as (_ & _ & (f & s & Hs & ->) & _).
    rewrite Z.add_0_l.
    assert (∀ ms, (∀ m, m ∈ ms → m ∈ l) → ∀ s,
              sum_counts (mpr_count f g) ms = Some s →
              sum_counts (mpr_count fuel g) ms = Some s) as Hsum.
    { induction ms as [|y ms IH]; intros Hms s'; [done|].
      rewrite !sum_counts_cons.
      destruct (mpr_count f g y) as [ny|] eqn:Ey; [simpl|done].
      rewrite (mpr_count_at g fuel f y ny Ey).
      2:{ apply (mpr_count_total g depth Hdag). right.
          destruct (Hl y) as (? & ? & ?); [apply Hms; by left|]. by split. }
      simpl. destruct (sum_counts (mpr_count f g) ms) as [a|]; [simpl|done].
      rewrite (IH ltac:(intros; apply Hms; by right) a); done. }
    apply Hsum; [|done].
    intros m Hm. by apply list_elem_of_filter in Hm as [_ Hm].
Qed.



Lemma sum_counts_nonneg cnt ms s :
  (∀ m n, cnt m = Some n → (0 ≤ n)%Z) →
  sum_counts cnt ms = Some s → (0 ≤ s)%Z.
Proof.
  intros Hc. revert s. induction ms as [|y ms IH]; intros s.
  - intros [= <-]. lia.
  - rewrite sum_counts_cons.
    destruct (cnt y) as [ny|] eqn:Ey; [simpl|done].
    destruct (sum_counts cnt ms) as [a|]; [simpl|done].
    intros [= <-]. apply Hc in Ey. specialize (IH a eq_refl). lia.
Qed.

End Counter.

Lemma count_mprs_sum_of_products_witness :
  ∃ total counts,
    count_roots 3 l_four g_four (Some "r"%string) 0%Z ∅ = Ok (total, counts) ∧
    sum_counts (mpr_count 3 g_four) (filter (fun m => m.1 = Some "r"%string) l_four)
    = Some total.
Proof.
  apply (count_mprs_sum_of_products g_four depth_four 3 l_four (Some "r"%string)).
  - apply closed_dag_intro. compute_done.
  - apply Forall_forall. compute_done.
Defined.

(** ** The frequency scorer *)

Section Scorer.

Lemma init_scores_fold l : ∀ (acc : scores_t) k,
  foldl (fun scores mappingNode => <[mappingNode := PyFloat 0]> scores) acc l !! k =
  if decide (k ∈ l) then Some (PyFloat 0) else acc !! k.
Proof.
  induction l as [|x l IH]; intros acc k.
  - simpl. destruct (decide (k ∈ [])) as [Hk|Hk]; [by apply elem_of_nil in Hk|done].
  - cbn [foldl]. rewrite IH.
    destruct (decide (k ∈ l)) as [Hk|Hk]; destruct (decide (k ∈ x :: l)) as [Hk'|Hk'].
    + done.
    + destruct Hk'. by right.
    + apply elem_of_cons in Hk' as [->|?]; [|done]. by rewrite lookup_insert_eq.
    + rewrite lookup_insert_ne; [done|]. intros ->. apply Hk'. by left.
Qed.

Lemma init_scores_lookup l k :
  init_scores l !! k =
  if decide (k = sentinel ∨ k ∈ l) then Some (PyFloat 0) else None.
Proof.
  unfold init_scores. destruct (decide (k = sentinel ∨ k ∈ l)) as [Hk|Hk].
  - destruct (decide (k = sentinel)) as [->|Hne]; [by rewrite lookup_insert_eq|].
    rewrite lookup_insert_ne by done. rewrite init_scores_fold.
    destruct Hk as [?|Hk]; [done|]. by rewrite decide_True.
  - rewrite lookup_insert_ne by (intros <-; apply Hk; by left).
    rewrite init_scores_fold, lookup_empty.
    rewrite decide_False; [done|]. intros ?. apply Hk. by right.
Qed.

(** [generate_scores] as written: once the counting loop has returned, the
    first stale identifier reached raises [NameError]. *)
Lemma generate_scores_NameError fuel l g gene_root total counts :
  count_roots fuel l g gene_root 0%Z ∅ = Ok (total, counts) →
  generate_scores fuel l g gene_root = Raise NameError.
Proof.
  intros Hcount. unfold generate_scores. rewrite Hcount.
  destruct l; vm_compute; reflexivity.
Qed.

(** The assertion of [calculate_scores_for_children] on a zero score. *)
Lemma calculate_scores_zero (g : recon_graph) (m : mapping_node) (scored : scored_t)
    (scores : scores_t) (counts : counts_t) (s : pynum) :
  scores !! m = Some s → py_nonzero s = false →
  calculate_scores_for_children m g scored scores counts = Raise AssertionError ∨
  calculate_scores_for_children m g scored scores counts = Raise KeyError.
Proof.
  intros Hs Hz. unfold calculate_scores_for_children, getitem.
  destruct (g !! m); [|by right]. simpl. rewrite Hs. simpl. rewrite Hz. by left.
Qed.

(** The first root counted keeps its count in the final memo. *)
Lemma count_roots_zero (g : recon_graph) (gene_root : node) (fuel : nat)
    (m0 : mapping_node) (rest : list mapping_node) (counts : counts_t) (c : Z) :
  count_roots fuel (m0 :: rest) g gene_root 0%Z ∅ = Ok (0%Z, counts) →
  m0.1 = gene_root → counts !! inl m0 = Some c → c = 0%Z.
Proof.
  intros Hcount Hroot Hc.
  destruct (count_roots_inv g gene_root fuel _ _ _ _ _ (memo_inv_empty g) Hcount)
    as ([[Hok _] _] & _ & (f & s & Hs & Hsum) & _).
  rewrite filter_cons, decide_True in Hs by done.
  rewrite sum_counts_cons in Hs.
  destruct (mpr_count f g m0) as [n0|] eqn:E0; [simpl in Hs|done].
  destruct (sum_counts _ _) as [a|] eqn:Ea; [simpl in Hs|done].
  injection Hs as <-.
  pose proof (mpr_count_nonneg g _ _ _ E0).
  eapply sum_counts_nonneg in Ea; [|apply mpr_count_nonneg].
  destruct (Hok m0 c Hc) as [f' Hf'].
  pose proof (mpr_count_det g _ _ _ _ _ E0 Hf'). lia.
Qed.


End Scorer.



(** C1: on a graph with four reconciliations [generate_scores] as written
    raises [NameError]; with its stale identifiers bound it returns the
    total 4 and event scores that were never divided by it: 4 for the
    speciation at the root, which every reconciliation uses, and 2 for
    each loss, which half of them use. *)
Theorem generate_scores_not_normalized :
  generate_scores 3 l_four g_four (Some "r"%string) = Raise NameError ∧
  generate_scores_bound 3 l_four g_four (Some "r"%string) = Ok (scores_four, 4%Z) ∧
  scores_four !! ("S"%string, nd "a" "B", nd "b" "C") = Some 4%float ∧
  (4 <=? 1)%float = false.
Proof. repeat split; compute_done. Qed.

(** The assertion of the scorer on a graph in root-to-leaf order whose
    mapping nodes are all reachable from a root: a mapping node without
    events makes the count of the root 0. *)
Example scorer_assertion_fails_on_dead_end :
  generate_scores_bound 3 l_dead g_dead (Some "r"%string) = Raise AssertionError.
Proof. compute_done. Qed.

(** ** Further properties of the code *)

Section Further.

(** [check_subgraph] is [True] exactly when every mapping node of
    [subrecon] is a key of [recon_graph] and every event listed under it
    is listed under the same key there. *)
Theorem check_subgraph_contract (recon_graph subrecon : recon_graph) :
  check_subgraph recon_graph subrecon = true ↔
  ∀ map_node events, subrecon !! map_node = Some events →
    ∃ evs, recon_graph !! map_node = Some evs ∧ ∀ event, event ∈ events → event ∈ evs.
Proof. apply check_subgraph_spec. Qed.

(** A subgraph of a subgraph is a subgraph. *)
Theorem check_subgraph_trans (a b c : recon_graph) :
  check_subgraph a b = true → check_subgraph b c = true →
  check_subgraph a c = true.
Proof.
  rewrite !check_subgraph_spec. intros Hab Hbc k evs Hk.
  destruct (Hbc k evs Hk) as (evs1 & Hk1 & H1).
  destruct (Hab k evs1 Hk1) as (evs2 & Hk2 & H2).
  exists evs2. split; [done|]. intros e He. by apply H2, H1.
Qed.

(** Every graph is a subgraph of itself. *)
Theorem check_subgraph_refl (a : recon_graph) : check_subgraph a a = true.
Proof. apply check_subgraph_spec. intros k evs Hk. by exists evs. Qed.

Lemma count_events_grows rec :
  (∀ m (counts : counts_t) n counts', rec m counts = Ok (n, counts') →
     memo_ext counts counts') →
  ∀ events count (counts : counts_t) n counts',
    count_events rec events count counts = Ok (n, counts') →
    memo_ext counts counts'.
Proof.
  intros Hrec. induction events as [|e events IH]; intros count counts n counts' Hrun.
  - injection Hrun as <- <-. apply memo_ext_refl.
  - simpl in Hrun.
    destruct (rec (child1 e) counts) as [[c1 counts1]|] eqn:E1; [simpl in Hrun|done].
    destruct (rec (child2 e) counts1) as [[c2 counts2]|] eqn:E2; [simpl in Hrun|done].
    eapply memo_ext_trans; [by eapply Hrec|].
    eapply memo_ext_trans; [by eapply Hrec|].
    eapply memo_ext_trans; [apply memo_ext_insert_inr|by eapply IH].
Qed.


(** Every count returned from an empty memo is positive when every mapping
    node of the graph lists at least one event, and non-negative on any
    graph. *)
Theorem count_mprs_positive (g : recon_graph) (fuel : nat) (m : mapping_node)
    (n : Z) (counts' : counts_t) :
  count_mprs fuel m g ∅ = Ok (n, counts') →
  (0 ≤ n)%Z ∧ (nonempty_events g → (0 < n)%Z).
Proof.
  intros Hrun.
  destruct (count_mprs_inv g _ _ _ _ _ (memo_inv_empty g) Hrun) as (_ & [f Hf] & _).
  split; [by eapply mpr_count_nonneg|]. intros Hne. by eapply mpr_count_pos.
Qed.

(** [generate_scores] as written never returns: either the counting loop
    raises, or the first stale identifier reached raises [NameError]. *)
Theorem generate_scores_always_raises (fuel : nat) (l : list mapping_node)
    (g : recon_graph) (gene_root : node) :
  generate_scores fuel l g gene_root = Raise NameError ∨
  ∃ e, count_roots fuel l g gene_root 0%Z ∅ = Raise e ∧
       generate_scores fuel l g gene_root = Raise e.
Proof.
  destruct (count_roots fuel l g gene_root 0%Z ∅) as [[total counts]|e] eqn:Hcount.
  - left. by eapply generate_scores_NameError.
  - right. exists e. split; [done|]. unfold generate_scores. by rewrite Hcount.
Qed.

Lemma sort_keys_KeyError (key : mapping_node → result Z) (l : list mapping_node) m :
  (∀ x e, key x = Raise e → e = KeyError) →
  m ∈ l → key m = Raise KeyError → sort_keys key l = Raise KeyError.
Proof.
  intros Hkey. induction l as [|x l IH]; intros Hm Hraise; [by apply elem_of_nil in Hm|].
  simpl. destruct (key x) as [k|e] eqn:Ex.
  - apply elem_of_cons in Hm as [->|Hm]; [congruence|]. simpl. by rewrite IH.
  - simpl. by rewrite (Hkey x e Ex).
Qed.

(** [mapping_node_sort] raises [KeyError] when the gene component or the
    species component of a mapping node is missing from its ordered list. *)
Theorem mapping_node_sort_missing (gl sl : list node) (ml : list mapping_node)
    (m : mapping_node) :
  m ∈ ml → m.1 ∉ gl ∨ m.2 ∉ sl →
  mapping_node_sort gl sl ml = Raise KeyError.
Proof.
  intros Hm Hmiss. unfold mapping_node_sort.
  erewrite sort_keys_KeyError; [done| |exact Hm|].
  - intros x e. unfold getitem.
    destruct (level_lookup _ 0 gl ∅ !! x.1); simpl; [|by intros [= <-]].
    destruct (level_lookup _ 0 sl ∅ !! x.2); simpl; [done|by intros [= <-]].
  - unfold getitem. destruct Hmiss as [Hg|Hs].
    + rewrite (level_lookup_notin _ _ _ _ _ Hg), lookup_empty. done.
    + destruct (level_lookup _ 0 gl ∅ !! m.1); simpl; [|done].
      rewrite (level_lookup_notin _ _ _ _ _ Hs), lookup_empty. done.
Qed.

Lemma best_roots_loop_incl combos : ∀ best_sum acc r,
  r ∈ (best_roots_loop combos best_sum acc).2 → r ∈ acc ∨ r ∈ combos.*1.
Proof.
  induction combos as [|rc rest IH]; intros best_sum acc r; simpl; [by left|].
  destruct best_sum as [b|].
  - destruct (rc.2 =? b)%float.
    + intros [[Hr|Hr]%elem_of_app|Hr]%IH; [by left| |right; by right].
      apply list_elem_of_singleton in Hr as ->. right. by left.
    + destruct (b <? rc.2)%float.
      * intros [Hr|Hr]%IH; [|right; by right].
        apply list_elem_of_singleton in Hr as ->. right. by left.
      * intros [Hr|Hr]%IH; [by left|right; by right].
  - intros [[Hr|Hr]%elem_of_app|Hr]%IH; [by left| |right; by right].
    apply list_elem_of_singleton in Hr as ->. right. by left.
Qed.

(** The roots returned by [compute_median] are among the roots it was
    given. *)
Theorem compute_median_roots (fuel : nat) (g : recon_graph) (es : scored_t)
    (post roots : list mapping_node) (med : recon_graph) (n : Z)
    (best_roots : list mapping_node) :
  compute_median fuel g es post roots = Ok (med, n, best_roots) →
  ∀ r, r ∈ best_roots → r ∈ roots.
Proof.
  intros Hrun r Hr.
  apply compute_median_inv in Hrun as (sf & combos & _ & Hc & -> & _).
  apply best_roots_loop_incl in Hr as [Hr|Hr]; [by apply elem_of_nil in Hr|].
  apply possible_root_combos_spec in Hc.
  clear -Hc Hr. induction Hc as [|r0 rc roots combos [Hfst _] _ IH]; [done|].
  simpl in Hr. apply elem_of_cons in Hr as [->|Hr]; [rewrite Hfst; by left|right; by apply IH].
Qed.

End Further.

Lemma check_subgraph_trans_witness : check_subgraph tied_dangling tied_walk = true.
Proof.
  apply (check_subgraph_trans tied_dangling tied_dict tied_walk); compute_done.
Defined.


Lemma count_mprs_positive_witness :
  (0 ≤ 4)%Z ∧ (nonempty_events g_four → (0 < 4)%Z).
Proof.
  apply (count_mprs_positive g_four 3 (nd "r" "A") 4%Z counts_four).
  compute_done.
Defined.

Lemma mapping_node_sort_missing_witness :
  mapping_node_sort [Some "g0"]%string [Some "S0"]%string [(Some "g1", Some "S0")]%string
  = Raise KeyError.
Proof.
  apply (mapping_node_sort_missing _ _ _ (Some "g1", Some "S0")%string).
  - compute_done.
  - left. compute_done.
Defined.

Lemma compute_median_roots_witness : nd "r" "R" ∈ [nd "r" "R"].
Proof.
  apply (compute_median_roots 3 tied_dict tied_scores tied_postorder
           [nd "r" "R"] tied_dict 2%Z [nd "r" "R"]).
  - compute_done.
  - compute_done.
Defined.
